(** * tcp_pool: length-prefixed framing, the connection pool and the
      command dispatcher of [internal/tcp], embedded from the Go source.

    The development follows the layout of the package:
    - [Framing]: [createTcpBuffer], [tcpConn.Read] and [tcpConn.Write]
      over a model of the blocking socket ([net.Conn]);
    - [Pool]: the [TcpConnPool] record, [release], [terminate], [get],
      [SendData] as state-passing functions over the pool and its sockets;
    - [Sched]: the goroutines ([get] callers and the
      [handleConnectionRequest] worker) as a step relation with a clock;
    - [Dispatch]: the handler registry and [HandleClientConnection]. *)

From Stdlib Require Import ZArith Lia.
From Stdlib Require Import Init.Byte Strings.Byte.
From stdpp Require Import gmap strings list pretty.

Local Open Scope Z_scope.

#[global] Instance byte_eq_decision : EqDecision byte := byte_eq_dec.

(** ** Errors

    The package's pre-defined errors (pool.go, lines 14-20), the two
    sentinel errors of Go's [io] package that [io.ReadFull] can produce,
    and the errors of the transport.  [OpError] is an error that wraps
    another one (as [*net.OpError] does), so that [errors.Is] has a chain
    to walk. *)
Inductive error : Type :=
| EOF
| ErrUnexpectedEOF
| ErrConnectionClosed
| ErrConnectionTimeout
| ErrMissingHandler
| ErrRead
| ErrWrite
| NetError (msg : string)
| JsonError (msg : string)
| OpError (op : string) (inner : error).

#[global] Instance error_eq_decision : EqDecision error.
Proof. intros x y. unfold Decision. decide equality; apply String.string_dec. Defined.

(** Go's [errors.Is err target]: [err] or an error it wraps is [target]. *)
Fixpoint errors_Is (err target : error) : bool :=
  if decide (err = target) then true
  else match err with
       | OpError _ inner => errors_Is inner target
       | _ => false
       end.

Module Framing.

(** [prefixSize = 4] (pool.go, line 23). *)
Definition prefixSize : Z := 4.

(** Conversion of an integer to Go's [uint32]: the low 32 bits. *)
Definition uint32 (z : Z) : Z := z mod 2 ^ 32.

(** Conversion of an integer to Go's [byte]: the low 8 bits. *)
Definition to_byte (z : Z) : byte :=
  default x00 (Byte.of_N (Z.to_N (z mod 256))).

(** The value of a byte as an unsigned integer ([uint32(b)]). *)
Definition of_byte (b : byte) : Z := Z.of_N (Byte.to_N b).

(** [binary.BigEndian.PutUint32]: the four bytes it stores, in order. *)
Definition PutUint32 (v : Z) : list byte :=
  [ to_byte (Z.shiftr v 24); to_byte (Z.shiftr v 16);
    to_byte (Z.shiftr v 8); to_byte v ].

(** [binary.BigEndian.Uint32] on a slice of (at least) four bytes. *)
Definition Uint32 (b : list byte) : Z :=
  match b with
  | b0 :: b1 :: b2 :: b3 :: _ =>
      Z.lor (Z.lor (Z.lor (of_byte b3) (Z.shiftl (of_byte b2) 8))
                   (Z.shiftl (of_byte b1) 16))
            (Z.shiftl (of_byte b0) 24)
  | _ => 0
  end.

(** Go's [len] of a slice. *)
Definition len {A} (l : list A) : Z := Z.of_nat (length l).

(** [createTcpBuffer] (pool.go, lines 89-100): a buffer of
    [prefixSize + len(data)] bytes whose first four bytes are
    [uint32(prefixSize+len(data))] in big-endian order and whose
    remaining bytes are a copy of [data]. *)
Definition createTcpBuffer (data : list byte) : list byte :=
  PutUint32 (uint32 (prefixSize + len data)) ++ data.

(** *** The socket

    A [net.Conn] seen from this process: the bytes the peer has sent and
    that were not read yet, what the transport does once those are used up
    (it reports an error, [EOF] when the peer has closed, or it keeps the
    reader waiting), the bytes written so far, the error a write meets (if
    any), and whether [Close] was called. *)
Inductive ending : Type :=
| Ends (e : error)
| StaysOpen.

Record netConn : Type := mkConn {
  incoming : list byte;
  atEnd : ending;
  outgoing : list byte;
  writeFault : option error;
  closed : bool
}.

#[global] Instance ending_eq_decision : EqDecision ending.
Proof. solve_decision. Defined.
#[global] Instance netConn_eq_decision : EqDecision netConn.
Proof. solve_decision. Defined.

Definition consume (n : nat) (c : netConn) : netConn :=
  mkConn (drop n (incoming c)) (atEnd c) (outgoing c) (writeFault c) (closed c).

(** What a call that may block on the socket does: it returns a value,
    returns an error, or never returns. *)
Inductive outcome (A : Type) : Type :=
| Ok (a : A)
| Err (e : error)
| Blocks.
Arguments Ok {A} a.
Arguments Err {A} e.
Arguments Blocks {A}.

(** Go's [io.ReadFull(conn, buf)] with [len(buf) = n], as its
    documentation and the loop of [io.ReadAtLeast] define it: short reads
    are retried until [n] bytes are there; when the reader fails first,
    the error is the reader's, except that [EOF] after at least one byte
    becomes [ErrUnexpectedEOF].  A request for zero bytes succeeds without
    touching the reader. *)
Definition ReadFull (c : netConn) (n : Z) : outcome (list byte) * netConn :=
  if n <=? len (incoming c) then
    (Ok (take (Z.to_nat n) (incoming c)), consume (Z.to_nat n) c)
  else
    let c' := consume (length (incoming c)) c in
    match atEnd c with
    | Ends e =>
        if (0 <? len (incoming c)) && bool_decide (e = EOF)
        then (Err ErrUnexpectedEOF, c')
        else (Err e, c')
    | StaysOpen => (Blocks, c')
    end.

(** [tcpConn.Read] (pool.go, lines 103-134), on the connection's socket
    [c.conn]. *)
Definition Read (c : netConn) : outcome (list byte) * netConn :=
  match ReadFull c prefixSize with
  | (Err err, c1) =>
      if errors_Is err EOF then (Err ErrConnectionClosed, c1)
      else (Err err, c1)
  | (Blocks, c1) => (Blocks, c1)
  | (Ok prefix, c1) =>
      let totalDataLength := Uint32 prefix in
      match ReadFull c1 (uint32 (totalDataLength - prefixSize)) with
      | (Err err, c2) =>
          if errors_Is err EOF then (Err ErrConnectionClosed, c2)
          else (Err err, c2)
      | (Blocks, c2) => (Blocks, c2)
      | (Ok data, c2) => (Ok data, c2)
      end
  end.

(** [net.Conn.Write(buf)]: the bytes go out, or the write fails with the
    socket's fault. *)
Definition connWrite (c : netConn) (buf : list byte) : outcome Z * netConn :=
  match writeFault c with
  | Some e => (Err e, c)
  | None =>
      (Ok (len buf),
       mkConn (incoming c) (atEnd c) (outgoing c ++ buf) None (closed c))
  end.

(** [tcpConn.Write] (pool.go, lines 137-151). *)
Definition Write (c : netConn) (data : list byte) : outcome Z * netConn :=
  let reqBuf := createTcpBuffer data in
  match connWrite c reqBuf with
  | (Err err, c1) =>
      if errors_Is err EOF then (Err ErrConnectionClosed, c1)
      else (Err err, c1)
  | (Blocks, c1) => (Blocks, c1)
  | (Ok n, c1) => (Ok n, c1)
  end.

(** [net.Conn.Close]. *)
Definition Close (c : netConn) : netConn :=
  mkConn (incoming c) (atEnd c) (outgoing c) (writeFault c) true.

(** A socket on which exactly the bytes [bs] arrive, ending as [e]. *)
Definition stream_of (bs : list byte) (e : ending) : netConn :=
  mkConn bs e [] None false.

(** Two large payloads: [2^32 - 4] and [2^32] zero bytes. *)
Definition payload_4GiB_less_4 : list byte :=
  replicate (Z.to_nat (2 ^ 32 - 4)) x00.

Definition payload_4GiB : list byte :=
  replicate (Z.to_nat (2 ^ 32)) x00.

End Framing.

Module Pool.
Import Framing.

(** [maxQueueLength = 10_000] (pool.go, line 24). *)
Definition maxQueueLength : Z := 10000.

(** Go's [int] on a 64-bit platform: two's complement on 64 bits. *)
Definition int (z : Z) : Z := (z + 2 ^ 63) mod 2 ^ 64 - 2 ^ 63.

(** [time.Second], in the nanoseconds of [time.Duration]. *)
Definition Second : Z := 1000000000.

(** [TcpConfig] (pool.go, lines 36-41). *)
Record TcpConfig : Type := mkConfig {
  Host : string;
  Port : Z;
  MaxIdleConns : Z;
  MaxOpenConn : Z
}.

(** [tcpConn] (pool.go, lines 44-48).  [conn] is the handle of the
    socket in the table of sockets of the [world].  The field [pool] of the
    source always points to the pool that opened the connection
    ([openNewTcpConnection], line 266); the model has one pool, so
    [c.pool.numOpen] is that pool's counter and the field is left out. *)
Record tcpConn : Type := mkTcpConn {
  id : string;
  conn : nat
}.

#[global] Instance tcpConn_eq_decision : EqDecision tcpConn.
Proof. solve_decision. Defined.

(** [connRequest] (pool.go, lines 52-55): two channels of capacity 1
    ([make(chan ..., 1)], lines 221-222), each empty or holding one
    value. *)
Record connRequest : Type := mkRequest {
  connChan : option tcpConn;
  errChan : option error
}.

(** [TcpConnPool] (pool.go, lines 58-67).  [mu] is [true] while the
    mutex is locked; [requestChan] holds the queued requests, oldest
    first, as handles into the table of requests of the [world]. *)
Record TcpConnPool : Type := mkPool {
  host : string;
  port : Z;
  mu : bool;
  idleConns : gmap string tcpConn;
  numOpen : Z;
  maxOpenCount : Z;
  maxIdleCount : Z;
  requestChan : list nat
}.

(** The memory of the process and what surrounds it: the pool, the
    sockets opened so far, the [connRequest] objects allocated so far, the
    clock (nanoseconds), what the next [net.Dial] will do, and which entry
    the next [range] over a map yields first (Go leaves the order of map
    iteration unspecified). *)
Record world : Type := mkWorld {
  pool : TcpConnPool;
  socks : list netConn;
  requests : list connRequest;
  now : Z;
  dialNext : error + netConn;
  rangeNext : gmap string tcpConn -> option tcpConn
}.

Definition with_pool (f : TcpConnPool -> TcpConnPool) (w : world) : world :=
  mkWorld (f (pool w)) (socks w) (requests w) (now w) (dialNext w) (rangeNext w).

Definition with_socks (f : list netConn -> list netConn) (w : world) : world :=
  mkWorld (pool w) (f (socks w)) (requests w) (now w) (dialNext w) (rangeNext w).

Definition with_requests (f : list connRequest -> list connRequest) (w : world)
  : world :=
  mkWorld (pool w) (socks w) (f (requests w)) (now w) (dialNext w) (rangeNext w).

Definition set_mu (b : bool) (p : TcpConnPool) : TcpConnPool :=
  mkPool (host p) (port p) b (idleConns p) (numOpen p) (maxOpenCount p)
         (maxIdleCount p) (requestChan p).

Definition set_idleConns (m : gmap string tcpConn) (p : TcpConnPool)
  : TcpConnPool :=
  mkPool (host p) (port p) (mu p) m (numOpen p) (maxOpenCount p)
         (maxIdleCount p) (requestChan p).

Definition set_numOpen (n : Z) (p : TcpConnPool) : TcpConnPool :=
  mkPool (host p) (port p) (mu p) (idleConns p) n (maxOpenCount p)
         (maxIdleCount p) (requestChan p).

Definition set_requestChan (q : list nat) (p : TcpConnPool) : TcpConnPool :=
  mkPool (host p) (port p) (mu p) (idleConns p) (numOpen p) (maxOpenCount p)
         (maxIdleCount p) q.

(** *** Programs

    The code of a goroutine: it returns, or performs one operation on the
    world and goes on, or runs a loop.  An operation that is not enabled
    ([f w = None]) blocks the goroutine: a locked mutex, a full or empty
    channel, a [select] none of whose cases is ready, a socket without
    data.  [op] names the kind of operation, for the statements about
    where a goroutine is blocked. *)
Inductive op : Type :=
| Local
| MuLock
| ChanSend
| ChanRecv
| Select (r : nat)
| SockIO (h : nat).

Inductive prog (A : Type) : Type :=
| Ret (a : A)
| Do {B : Type} (o : op) (f : world -> option (B * world)) (k : B -> prog A)
| Loop {I R : Type} (body : I -> prog (I + R)) (i : I) (k : R -> prog A).
Arguments Ret {A} a.
Arguments Do {A B} o f k.
Arguments Loop {A I R} body i k.

Fixpoint bind {A B : Type} (p : prog A) (f : A -> prog B) : prog B :=
  match p with
  | Ret a => f a
  | Do o g k => Do o g (fun b => bind (k b) f)
  | Loop body i k => Loop body i (fun r => bind (k r) f)
  end.

#[global] Instance prog_ret : MRet prog := @Ret.
#[global] Instance prog_bind : MBind prog := fun A B f p => bind p f.

(** Operations that never block. *)
Definition act {B : Type} (f : world -> B * world) : prog B :=
  Do Local (fun w => Some (f w)) Ret.

Definition gets {B : Type} (f : world -> B) : prog B :=
  act (fun w => (f w, w)).

Definition modify (f : world -> world) : prog unit :=
  act (fun w => (tt, f w)).

(** [p.mu.Lock()]: waits while the mutex is locked. *)
Definition Lock : prog unit :=
  Do MuLock
     (fun w => if mu (pool w) then None
               else Some (tt, with_pool (set_mu true) w))
     Ret.

(** [p.mu.Unlock()].  Every call in the source follows a [Lock] of the
    same goroutine, so Go's fatal error on an unlocked mutex is not
    reached. *)
Definition Unlock : prog unit := modify (with_pool (set_mu false)).

(** [len(p.idleConns)]. *)
Definition numIdleConns (w : world) : Z := Z.of_nat (size (idleConns (pool w))).

(** The first iteration of [for _, c := range p.idleConns]. *)
Definition rangeIdleConns : prog (option tcpConn) :=
  gets (fun w => rangeNext w (idleConns (pool w))).

(** [delete(p.idleConns, c.id)] and [p.idleConns[c.id] = c]. *)
Definition deleteIdle (k : string) : prog unit :=
  modify (with_pool (fun p => set_idleConns (delete k (idleConns p)) p)).

Definition storeIdle (c : tcpConn) : prog unit :=
  modify (with_pool (fun p => set_idleConns (<[id c := c]> (idleConns p)) p)).

(** [p.numOpen++] and [p.numOpen--]. *)
Definition incrNumOpen : prog unit :=
  modify (with_pool (fun p => set_numOpen (int (numOpen p + 1)) p)).

Definition decrNumOpen : prog unit :=
  modify (with_pool (fun p => set_numOpen (int (numOpen p - 1)) p)).

(** [c.conn.Close()]. *)
Definition closeConn (c : tcpConn) : prog unit :=
  modify (with_socks (alter Close (conn c))).

(** [&connRequest{connChan: make(chan *tcpConn, 1), errChan: make(chan
    error, 1)}] (lines 220-223). *)
Definition newRequest : prog nat :=
  act (fun w => (length (requests w),
                 with_requests (fun l => l ++ [mkRequest None None]) w)).

(** [p.requestChan <- req]: waits while the queue holds
    [maxQueueLength] requests. *)
Definition sendRequest (req : nat) : prog unit :=
  Do ChanSend
     (fun w => if len (requestChan (pool w)) <? maxQueueLength
               then Some (tt, with_pool
                                (fun p => set_requestChan (requestChan p ++ [req]) p) w)
               else None)
     Ret.

(** One iteration of [for req := range p.requestChan]: waits for a
    request. *)
Definition recvRequest : prog nat :=
  Do ChanRecv
     (fun w => match requestChan (pool w) with
               | req :: q => Some (req, with_pool (set_requestChan q) w)
               | [] => None
               end)
     Ret.

(** The [select] of [get] (lines 230-235): waits until one of the two
    channels of the request holds a value.  The worker sends on exactly
    one of them for each request, so at most one case is ready. *)
Definition selectRequest (req : nat) : prog (tcpConn + error) :=
  Do (Select req)
     (fun w => match requests w !! req with
               | Some (mkRequest (Some c) e) =>
                   Some (inl c, with_requests (<[req := mkRequest None e]>) w)
               | Some (mkRequest None (Some err)) =>
                   Some (inr err, with_requests (<[req := mkRequest None None]>) w)
               | _ => None
               end)
     Ret.

(** [req.connChan <- c] and [req.errChan <- err]: wait while the channel
    is full. *)
Definition sendConn (req : nat) (c : tcpConn) : prog unit :=
  Do ChanSend
     (fun w => match requests w !! req with
               | Some (mkRequest None e) =>
                   Some (tt, with_requests (<[req := mkRequest (Some c) e]>) w)
               | _ => None
               end)
     Ret.

Definition sendErr (req : nat) (err : error) : prog unit :=
  Do ChanSend
     (fun w => match requests w !! req with
               | Some (mkRequest c None) =>
                   Some (tt, with_requests (<[req := mkRequest c (Some err)]>) w)
               | _ => None
               end)
     Ret.

(** A call of [tcpConn.Read] or [tcpConn.Write] on the socket of a
    connection: waits while the socket does. *)
Definition sockIO {B : Type} (c : tcpConn)
    (f : netConn -> outcome B * netConn) : prog (B + error) :=
  Do (SockIO (conn c))
     (fun w => match socks w !! conn c with
               | Some s =>
                   match f s with
                   | (Ok b, s') => Some (inl b, with_socks (<[conn c := s']>) w)
                   | (Err e, s') => Some (inr e, with_socks (<[conn c := s']>) w)
                   | (Blocks, _) => None
                   end
               | None => None
               end)
     Ret.

(** [CreateTcpConnPool] (pool.go, lines 71-84): the pool it builds.  The
    goroutine it starts is [handleConnectionRequest] below. *)
Definition CreateTcpConnPool (cfg : TcpConfig) : TcpConnPool :=
  mkPool (Host cfg) (Port cfg) false ∅ 0 (MaxOpenConn cfg) (MaxIdleConns cfg) [].

(** [terminate] (pool.go, lines 154-157). *)
Definition terminate (c : tcpConn) : prog unit :=
  closeConn c ;;
  deleteIdle (id c).

(** [release] (pool.go, lines 189-199). *)
Definition release (c : tcpConn) : prog unit :=
  Lock ;;
  p ← gets pool;
  (if (0 <? maxIdleCount p) && (Z.of_nat (size (idleConns p)) <? maxIdleCount p)
   then storeIdle c
   else closeConn c ;; decrNumOpen) ;;
  Unlock.

(** [openNewTcpConnection] (pool.go, lines 254-268): [net.Dial], then
    the identifier from the clock, [fmt.Sprintf("%v", time.Now().UnixNano())]. *)
Definition openNewTcpConnection : prog (tcpConn + error) :=
  c ← act (fun w => match dialNext w with
                    | inl err => (inl err, w)
                    | inr s => (inr (length (socks w)),
                                with_socks (fun l => l ++ [s]) w)
                    end);
  match c with
  | inl err => Ret (inr err)
  | inr h => t ← gets now; Ret (inl (mkTcpConn (pretty t) h))
  end.

(** [get] (pool.go, lines 202-251). *)
Definition get : prog (tcpConn + error) :=
  Lock ;;
  (* Case 1: Gets a free connection from the pool if any *)
  numIdle ← gets numIdleConns;
  first ← (if 0 <? numIdle then rangeIdleConns else Ret None);
  match first with
  | Some c =>
      deleteIdle (id c) ;;
      Unlock ;;
      Ret (inl c)
  | None =>
      p ← gets pool;
      if (0 <? maxOpenCount p) && (maxOpenCount p <=? numOpen p) then
        (* Case 2: Queue a connection request *)
        req ← newRequest;
        sendRequest req ;;
        selectRequest req
      else
        (* Case 3: Open a new connection *)
        incrNumOpen ;;
        Unlock ;;
        r ← openNewTcpConnection;
        match r with
        | inr err =>
            Lock ;;
            decrNumOpen ;;
            Unlock ;;
            Ret (inr err)
        | inl newTcpConn => Ret (inl newTcpConn)
        end
  end.

(** [SendData] (pool.go, lines 160-185), in two parts: [get], and what
    is done with the connection it returns. *)
Definition sendOn (tcpConn : tcpConn) (data : list byte)
  : prog (list byte + error) :=
  r ← sockIO tcpConn (fun s => Write s data);
  match r with
  | inr err => terminate tcpConn ;; Ret (inr err)
  | inl _ =>
      r ← sockIO tcpConn Read;
      match r with
      | inr err => terminate tcpConn ;; Ret (inr err)
      | inl resBuf => release tcpConn ;; Ret (inl resBuf)
      end
  end.

Definition SendData (data : list byte) : prog (list byte + error) :=
  r ← get;
  match r with
  | inr err => Ret (inr err)
  | inl tcpConn => sendOn tcpConn data
  end.

(** [handleConnectionRequest] (pool.go, lines 272-326).  The state of
    the inner loop is the pair [(requestDone, hasTimeout)];
    [time.After(3 * time.Second)] is ready once the clock has reached
    [timeoutAt]. *)
Definition handleConnectionRequest : prog unit :=
  Loop (fun _ : unit =>
    req ← recvRequest;
    timeoutAt ← gets (fun w => now w + 3 * Second);
    Loop (fun st : bool * bool =>
      let '(requestDone, hasTimeout) := st in
      if hasTimeout || requestDone then Ret (inr tt)
      else
        fired ← gets (fun w => timeoutAt <=? now w);
        if fired : bool then
          (* request timeout *)
          sendErr req ErrConnectionTimeout ;;
          Ret (inl (requestDone, true))
        else
          Lock ;;
          numIdle ← gets numIdleConns;
          if 0 <? numIdle then
            first ← rangeIdleConns;
            match first with
            | Some c =>
                deleteIdle (id c) ;;
                Unlock ;;
                sendConn req c ;;
                Ret (inl (true, hasTimeout))
            | None => Ret (inl (requestDone, hasTimeout))
            end
          else
            p ← gets pool;
            if (0 <? maxOpenCount p) && (numOpen p <? maxOpenCount p) then
              incrNumOpen ;;
              Unlock ;;
              r ← openNewTcpConnection;
              match r with
              | inr err =>
                  (* we allow retry instead of return error *)
                  Lock ;;
                  decrNumOpen ;;
                  Unlock ;;
                  Ret (inl (requestDone, hasTimeout))
              | inl c =>
                  sendConn req c ;;
                  Ret (inl (true, hasTimeout))
              end
            else
              Unlock ;;
              Ret (inl (requestDone, hasTimeout)))
      (false, false)
      (fun _ : unit => Ret (inl tt)))
    tt
    (fun r : Empty_set => match r with end).

(** *** Running one goroutine alone

    [exec n p w] runs [p] from [w] until it returns, or blocks on an
    operation that is not enabled (nothing else runs, so it stays
    blocked), or has gone [n] times round a loop. *)
Inductive result (A : Type) : Type :=
| Done (a : A) (w : world)
| Stuck (o : op) (w : world)
| Spins (w : world).
Arguments Done {A} a w.
Arguments Stuck {A} o w.
Arguments Spins {A} w.

Fixpoint exec {A : Type} (n : nat) (p : prog A) (w : world) {struct p}
  : result A :=
  match p with
  | Ret a => Done a w
  | Do o f k =>
      match f w with
      | Some (b, w') => exec n (k b) w'
      | None => Stuck o w
      end
  | Loop body i k =>
      (fix iter (m : nat) i w {struct m} : result A :=
         match m with
         | O => Spins w
         | S m' =>
             match exec n (body i) w with
             | Done (inl i') w' => iter m' i' w'
             | Done (inr r) w' => exec n (k r) w'
             | Stuck o w' => Stuck o w'
             | Spins w' => Spins w'
             end
         end) n i w
  end.

(** The programs of the callers have no loop. *)
Definition run {A : Type} (p : prog A) (w : world) : result A := exec 0 p w.

(** The world in which a run ends. *)
Definition after {A : Type} (r : result A) : world :=
  match r with
  | Done _ w => w
  | Stuck _ w => w
  | Spins w => w
  end.

(** *** Sequences of calls

    A concrete order of iteration, the configuration of the repository's
    test ([TestDeadlock]: one idle connection, one open connection), and a
    freshly created pool in its world. *)
Definition rangeFirst (m : gmap string tcpConn) : option tcpConn :=
  snd <$> head (map_to_list m).

Definition testConfig : TcpConfig := mkConfig "127.0.0.1" 11011 1 1.

Definition start (cfg : TcpConfig) (t : Z) (dial : error + netConn) : world :=
  mkWorld (CreateTcpConnPool cfg) [] [] t dial rangeFirst.

(** The number of connections opened by the pool whose socket is not
    closed: the idle ones and the ones in use. *)
Definition openConns (w : world) : Z :=
  len (filter (fun s => closed s = false) (socks w)).

(** [release] of each connection of a list, one call after the other. *)
Definition releaseAll (cs : list tcpConn) (w : world) : world :=
  foldl (fun w c => after (run (release c) w)) w cs.

(** A [range] yields an entry of the map, and yields one when the map
    is not empty. *)
Definition range_ok (f : gmap string tcpConn -> option tcpConn) : Prop :=
  forall m, match f m with
            | Some c => exists k, m !! k = Some c
            | None => m = ∅
            end.

(** The identifier that a connection opened now would get is not the
    identifier of a connection that is idle or in use. *)
Definition fresh_id (w : world) (inUse : list tcpConn) : Prop :=
  idleConns (pool w) !! pretty (now w) = None
  /\ forall c, c ∈ inUse -> id c <> pretty (now w).

(** The states that sequences of [get] and [release] lead to, with the
    connections that callers hold: [get] hands a connection to its caller,
    [release] is called by a caller on a connection it holds; in between,
    time passes and the transport does what it does. *)
Inductive reachable : world -> list tcpConn -> Prop :=
| reach_start cfg t dial :
    reachable (start cfg t dial) []
| reach_env w inUse t ss dial range :
    reachable w inUse ->
    reachable (mkWorld (pool w) ss (requests w) t dial range) inUse
| reach_get w inUse :
    reachable w inUse -> range_ok (rangeNext w) -> fresh_id w inUse ->
    reachable (after (run get w))
              (match run get w with
               | Done (inl c) _ => c :: inUse
               | _ => inUse
               end)
| reach_release w held c held' :
    reachable w (held ++ c :: held') ->
    reachable (after (run (release c) w)) (held ++ held').

(** *** States of the repository's test

    The pool of [TestDeadlock] after a first [get] (its caller holds the
    only connection), after a second [get]; a pool whose server hangs up
    without answering, before and after one [SendData]; and a pool with
    two connections to release. *)
Definition w_held : world :=
  after (run get (start testConfig 1000 (inr (stream_of [] StaysOpen)))).

Definition c_held : tcpConn := mkTcpConn "1000" 0.

Definition w_queued : world := after (run get w_held).

Definition w_hangup : world :=
  start testConfig 1000 (inr (stream_of [] (Ends EOF))).

Definition w_leaked : world := after (run (SendData [x68; x69]) w_hangup).

Definition c7 : tcpConn := mkTcpConn "7" 0.

Definition c8 : tcpConn := mkTcpConn "8" 1.

Definition w7 : world := start testConfig 1000 (inl (NetError "refused")).

(** What the proof of single ownership carries along: every entry of the
    idle map sits under the identifier of its connection, the connections
    held have distinct identifiers, and none of them is in the idle map. *)
Definition owner_inv (w : world) (inUse : list tcpConn) : Prop :=
  (forall k c, idleConns (pool w) !! k = Some c -> id c = k)
  /\ NoDup (id <$> inUse)
  /\ (forall c, c ∈ inUse -> idleConns (pool w) !! id c = None).

(** The pool has room for one more open connection: no limit is
    configured, or the limit is not reached (the negation of the guard of
    Case 2 of [get], line 218). *)
Definition has_headroom (w : world) : Prop :=
  maxOpenCount (pool w) <= 0 \/ numOpen (pool w) < maxOpenCount (pool w).

(** How a run goes on when its program is followed by [f]. *)
Definition andThen {A B : Type} (n : nat) (r : result A) (f : A -> prog B)
  : result B :=
  match r with
  | Done a w => exec n (f a) w
  | Stuck o w => Stuck o w
  | Spins w => Spins w
  end.

(** One pass through the inner [for] of [handleConnectionRequest]
    (pool.go, lines 283-323) for the request [req] whose timer fires at
    [timeoutAt]: the body of the inner loop above, under a name. *)
Definition pollOnce (req : nat) (timeoutAt : Z) (st : bool * bool)
  : prog (bool * bool + unit) :=
  let '(requestDone, hasTimeout) := st in
  if hasTimeout || requestDone then Ret (inr tt)
  else
    fired ← gets (fun w => timeoutAt <=? now w);
    if fired : bool then
      sendErr req ErrConnectionTimeout ;;
      Ret (inl (requestDone, true))
    else
      Lock ;;
      numIdle ← gets numIdleConns;
      if 0 <? numIdle then
        first ← rangeIdleConns;
        match first with
        | Some c =>
            deleteIdle (id c) ;;
            Unlock ;;
            sendConn req c ;;
            Ret (inl (true, hasTimeout))
        | None => Ret (inl (requestDone, hasTimeout))
        end
      else
        p ← gets pool;
        if (0 <? maxOpenCount p) && (numOpen p <? maxOpenCount p) then
          incrNumOpen ;;
          Unlock ;;
          r ← openNewTcpConnection;
          match r with
          | inr err =>
              Lock ;;
              decrNumOpen ;;
              Unlock ;;
              Ret (inl (requestDone, hasTimeout))
          | inl c =>
              sendConn req c ;;
              Ret (inl (true, hasTimeout))
          end
        else
          Unlock ;;
          Ret (inl (requestDone, hasTimeout)).

(** What the worker does with one request taken from the queue (lines
    274-323): it starts the timer and polls until the request is done or
    has timed out. *)
Definition serveRequest (req : nat) : prog unit :=
  timeoutAt ← gets (fun w => now w + 3 * Second);
  Loop (pollOnce req timeoutAt) (false, false) (fun _ : unit => Ret tt).

(** [m] rounds of a loop, each part of it run with fuel [n]: the loop of
    [exec]. *)
Fixpoint iterate {A I R : Type} (n m : nat) (body : I -> prog (I + R))
    (k : R -> prog A) (i : I) (w : world) : result A :=
  match m with
  | O => Spins w
  | S m' =>
      match exec n (body i) w with
      | Done (inl i') w' => iterate n m' body k i' w'
      | Done (inr r) w' => exec n (k r) w'
      | Stuck o w' => Stuck o w'
      | Spins w' => Spins w'
      end
  end.

End Pool.

Module Sched.
Import Framing Pool.

(** One step of a goroutine: its next operation, when it is enabled.  A
    loop unfolds its body once. *)
Definition step {A : Type} (p : prog A) (w : world) : option (prog A * world) :=
  match p with
  | Ret _ => None
  | Do o f k =>
      match f w with
      | Some (b, w') => Some (k b, w')
      | None => None
      end
  | Loop body i k =>
      Some (bind (body i)
                 (fun r => match r with
                           | inl i' => Loop body i' k
                           | inr a => k a
                           end), w)
  end.

(** The process of the claim about the timeout: the caller that holds
    the connection (it runs the rest of its [SendData]), the caller inside
    [get], and the worker started by [CreateTcpConnPool]. *)
Record sys : Type := mkSys {
  mem : world;
  holder : prog (list byte + error);
  waiter : prog (tcpConn + error);
  worker : prog unit
}.

(** What can happen next: a goroutine takes a step, time passes, or the
    transport changes the sockets, the outcome of the next dial or the
    order of the next map iteration. *)
Inductive event : Type :=
| RunHolder
| RunWaiter
| RunWorker
| Tick (d : Z)
| Transport (ss : list netConn) (dial : error + netConn)
            (range : gmap string tcpConn -> option tcpConn).

Definition fire (e : event) (s : sys) : option sys :=
  match e with
  | RunHolder =>
      match step (holder s) (mem s) with
      | Some (p, w) => Some (mkSys w p (waiter s) (worker s))
      | None => None
      end
  | RunWaiter =>
      match step (waiter s) (mem s) with
      | Some (p, w) => Some (mkSys w (holder s) p (worker s))
      | None => None
      end
  | RunWorker =>
      match step (worker s) (mem s) with
      | Some (p, w) => Some (mkSys w (holder s) (waiter s) p)
      | None => None
      end
  | Tick d =>
      if 0 <? d
      then Some (mkSys (mkWorld (pool (mem s)) (socks (mem s)) (requests (mem s))
                                (now (mem s) + d) (dialNext (mem s))
                                (rangeNext (mem s)))
                       (holder s) (waiter s) (worker s))
      else None
  | Transport ss dial range =>
      Some (mkSys (mkWorld (pool (mem s)) ss (requests (mem s)) (now (mem s))
                           dial range)
                  (holder s) (waiter s) (worker s))
  end.

(** [reaches s s']: some sequence of events leads from [s] to [s']. *)
Inductive reaches : sys -> sys -> Prop :=
| reaches_here s : reaches s s
| reaches_next e s s1 s2 : fire e s = Some s1 -> reaches s1 s2 -> reaches s s2.

(** The events of a schedule, in order; [None] when one is not enabled. *)
Fixpoint play (es : list event) (s : sys) : option sys :=
  match es with
  | [] => Some s
  | e :: es' =>
      match fire e s with
      | Some s' => play es' s'
      | None => None
      end
  end.

(** Where a goroutine is: the kind of its next operation. *)
Definition next_op {A : Type} (p : prog A) : option op :=
  match p with
  | Do o _ _ => Some o
  | _ => None
  end.

(** A program that, run while somebody else holds the mutex, never
    unlocks it and never touches a request. *)
Inductive quiet {A : Type} : prog A -> Prop :=
| quiet_Ret a : quiet (Ret a)
| quiet_Do {B : Type} o (f : world -> option (B * world)) k :
    (forall w b w', mu (pool w) = true -> f w = Some (b, w') ->
       mu (pool w') = true) ->
    (forall w b w', mu (pool w) = true -> f w = Some (b, w') ->
       requests w' = requests w) ->
    (forall w b w', mu (pool w) = true -> f w = Some (b, w') ->
       quiet (k b)) ->
    quiet (Do o f k).

(** The process of the test, once the first caller holds the only
    connection; the schedule in which the second caller runs until it
    waits, then the worker runs until it waits; and the state this leads
    to. *)
Definition s_held : sys :=
  mkSys w_held (sendOn c_held [x68; x69]) get handleConnectionRequest.

Definition queue_then_poll : list event :=
  [RunWaiter; RunWaiter; RunWaiter; RunWaiter; RunWaiter;
   RunWorker; RunWorker; RunWorker; RunWorker; RunWorker].

Definition s_stuck : sys := default s_held (play queue_then_poll s_held).

(** The circle of waiting: the mutex is locked, the request has no
    answer, the second caller waits for the answer, the worker waits for
    the mutex, and the first caller does nothing that would unlock it. *)
Definition stuck (s : sys) : Prop :=
  mu (pool (mem s)) = true
  /\ requests (mem s) = [mkRequest None None]
  /\ waiter s = selectRequest 0
  /\ worker s = worker s_stuck
  /\ quiet (holder s).

End Sched.

Module Dispatch.
Import Framing.

(** [Packet] (pool.go, lines 30-33). *)
Record Packet : Type := mkPacket {
  Packet_Command : string;
  Packet_Data : list byte
}.

Section Handlers.

(** The values that sit behind the [interface{}] fields of a
    [HandlerConfig]: the request and response shapes. *)
Context {obj : Type}.

(** The three uses of [encoding/json] in handler.go:
    [json.Unmarshal(data, &packet)] (line 50),
    [json.Unmarshal(packet.Data, handlerCfg.Request)] (line 61), which
    decodes into the object it is given and may have changed it when it
    reports an error, and [json.Marshal(handlerCfg.Response)] (line 69). *)
Class Codec : Type := mkCodec {
  unmarshalPacket : list byte -> Packet + error;
  unmarshal : list byte -> obj -> obj * option error;
  marshal : obj -> list byte + error
}.

Context {json : Codec}.

(** [HandlerConfig] (handler.go, lines 16-21).  [Request] and [Response]
    are pointers: addresses in the heap of shape objects.  A handler gets
    the two pointers and may write to the objects of the heap. *)
Record HandlerConfig : Type := mkHandlerConfig {
  Command : string;
  Handler : nat -> nat -> list obj -> list obj;
  Request : nat;
  Response : nat
}.

(** The state of the server: the global [handlers] (handler.go, line 9)
    and the heap of shape objects. *)
Record server : Type := mkServer {
  handlers : gmap string HandlerConfig;
  heap : list obj
}.

(** [RegisterHandler] (handler.go, lines 23-25). *)
Definition RegisterHandler (hc : HandlerConfig) (st : server) : server :=
  mkServer (<[Command hc := hc]> (handlers st)) (heap st).

(** What one iteration of the loop of [HandleClientConnection] does: it
    goes on to the next iteration, or the function returns with [err]
    set, or the iteration waits for bytes that do not come. *)
Inductive served : Type :=
| Next (st : server) (c : netConn)
| Return (err : error) (st : server) (c : netConn)
| Waits (st : server) (c : netConn).

(** The body of the loop of [HandleClientConnection] (handler.go, lines
    44-77).  A [Request] pointer that points nowhere makes
    [json.Unmarshal] fail, as it does on [nil]. *)
Definition serve (st : server) (c : netConn) : served :=
  match Read c with
  | (Blocks, c1) => Waits st c1
  | (Err err, c1) => Return err st c1
  | (Ok data, c1) =>
      match unmarshalPacket data with
      | inr err => Return err st c1
      | inl packet =>
          match handlers st !! Packet_Command packet with
          | None => Return ErrMissingHandler st c1
          | Some handlerCfg =>
              match heap st !! Request handlerCfg with
              | None => Return (JsonError "Unmarshal(nil)") st c1
              | Some req =>
                  let '(req', failed) := unmarshal (Packet_Data packet) req in
                  let heap1 := <[Request handlerCfg := req']> (heap st) in
                  match failed with
                  | Some err => Return err (mkServer (handlers st) heap1) c1
                  | None =>
                      (* Route client request to handler *)
                      let heap2 :=
                        Handler handlerCfg (Request handlerCfg)
                                (Response handlerCfg) heap1 in
                      let st2 := mkServer (handlers st) heap2 in
                      match heap2 !! Response handlerCfg with
                      | None => Return (JsonError "Marshal(nil)") st2 c1
                      | Some res =>
                          match marshal res with
                          | inr err => Return err st2 c1
                          | inl response =>
                              match Write c1 response with
                              | (Ok _, c2) => Next st2 c2
                              | (Err err, c2) => Return err st2 c2
                              | (Blocks, c2) => Waits st2 c2
                              end
                          end
                      end
                  end
              end
          end
      end
  end.

(** The loop, for at most [n] iterations; on return the deferred
    function closes the socket ([err] is never [nil] there). *)
Fixpoint serveLoop (n : nat) (st : server) (c : netConn) : served :=
  match n with
  | O => Next st c
  | S n' =>
      match serve st c with
      | Next st' c' => serveLoop n' st' c'
      | Return err st' c' => Return err st' (Close c')
      | Waits st' c' => Waits st' c'
      end
  end.

(** [HandleClientConnection] (handler.go, lines 29-79).  Every iteration
    that goes on has read at least the four bytes of a prefix, so the loop
    cannot go round more often than there are bytes to read. *)
Definition HandleClientConnection (st : server) (c : netConn) : served :=
  serveLoop (S (length (incoming c))) st c.

(** The server after a run. *)
Definition server_of (r : served) : server :=
  match r with
  | Next st _ => st
  | Return _ st _ => st
  | Waits st _ => st
  end.

End Handlers.

Arguments Codec obj : clear implicits.
Arguments HandlerConfig obj : clear implicits.
Arguments server obj : clear implicits.

(** *** The server of the repository

    The shapes of [internal/model/user.go] and the handler that the
    server's [main] registers (its [LoginUser], which sets
    [res.Message]). *)
Inductive shape : Type :=
| LoginUserRequest (Username Password : string)
| LoginUserResponse (ErrCode : Z) (Message : string).

#[global] Instance shape_eq_decision : EqDecision shape.
Proof. solve_decision. Defined.

Definition LoginUser (req res : nat) (h : list shape) : list shape :=
  alter (fun o => match o with
                  | LoginUserResponse code _ => LoginUserResponse code "Got it!"
                  | o => o
                  end) res h.

(** Modelled from the spec: the constant [conf.CmdLoginUser] is declared
    in a file of package [conf] that is not among the sources; the comment
    where the handler is registered names the command login_user. *)
Definition CmdLoginUser : string := "login_user".

(** The registration done by [main]: [Request] and [Response] point to
    two fresh, zero-valued objects. *)
Definition login_config : HandlerConfig shape :=
  mkHandlerConfig CmdLoginUser LoginUser 0 1.

Definition login_server `{Codec shape} : server shape :=
  RegisterHandler login_config
    (mkServer ∅ [LoginUserRequest "" ""; LoginUserResponse 0 ""]).

(** One exchange, as [encoding/json] writes it: the envelope whose
    [Command] is login_user and whose [Data] is the base64 text of the
    request; the request with username a and password b; and the response
    with error code 0 and the message of [LoginUser]. *)
Definition envelope_bytes : list byte :=
  [x7b; x22; x43; x6f; x6d; x6d; x61; x6e; x64; x22; x3a; x22; x6c; x6f;
   x67; x69; x6e; x5f; x75; x73; x65; x72; x22; x2c; x22; x44; x61; x74;
   x61; x22; x3a; x22; x65; x79; x4a; x31; x63; x32; x56; x79; x62; x6d;
   x46; x74; x5a; x53; x49; x36; x49; x6d; x45; x69; x4c; x43; x4a; x77;
   x59; x58; x4e; x7a; x64; x32; x39; x79; x5a; x43; x49; x36; x49; x6d;
   x49; x69; x66; x51; x3d; x3d; x22; x7d].

Definition request_bytes : list byte :=
  [x7b; x22; x75; x73; x65; x72; x6e; x61; x6d; x65; x22; x3a; x22; x61;
   x22; x2c; x22; x70; x61; x73; x73; x77; x6f; x72; x64; x22; x3a; x22;
   x62; x22; x7d].

Definition response_bytes : list byte :=
  [x7b; x22; x65; x72; x72; x5f; x63; x6f; x64; x65; x22; x3a; x30; x2c;
   x22; x6d; x65; x73; x73; x61; x67; x65; x22; x3a; x22; x47; x6f; x74;
   x20; x69; x74; x21; x22; x7d].

(** A codec that does what [encoding/json] does on the three texts
    above and rejects everything else. *)
#[global] Instance sample_json : Codec shape := {|
  unmarshalPacket data :=
    if decide (data = envelope_bytes)
    then inl (mkPacket CmdLoginUser request_bytes)
    else inr (JsonError "invalid character");
  unmarshal data o :=
    match o with
    | LoginUserRequest _ _ =>
        if decide (data = request_bytes)
        then (LoginUserRequest "a" "b", None)
        else (o, Some (JsonError "invalid character"))
    | _ => (o, Some (JsonError "cannot unmarshal"))
    end;
  marshal o :=
    if decide (o = LoginUserResponse 0 "Got it!")
    then inl response_bytes
    else inr (JsonError "unsupported value")
|}.

End Dispatch.

(** * Properties of the framing layer *)
Module FramingFacts.
Import Framing.

Lemma of_byte_to_byte z : of_byte (to_byte z) = z mod 256.
Proof.
  unfold of_byte, to_byte.
  assert (0 <= z mod 256 < 256) as Hb by (apply Z.mod_pos_bound; lia).
  destruct (Byte.of_N (Z.to_N (z mod 256))) as [b|] eqn:E; simpl.
  - apply Byte.to_of_N in E. rewrite E. lia.
  - apply Byte.of_N_None_iff in E. lia.
Qed.

Lemma testbit_mod256 x m :
  Z.testbit (x mod 256) m = (m <? 8) && Z.testbit x m.
Proof.
  change 256 with (2 ^ 8).
  destruct (Z.ltb_spec m 8); simpl.
  - destruct (Z.ltb_spec m 0).
    + by rewrite !Z.testbit_neg_r.
    + by rewrite Z.mod_pow2_bits_low.
  - by rewrite Z.mod_pow2_bits_high.
Qed.

Lemma testbit_octet v k n :
  0 <= k -> 0 <= n ->
  Z.testbit (Z.shiftl (Z.shiftr v k mod 256) k) n
  = (k <=? n) && (n <? k + 8) && Z.testbit v n.
Proof.
  intros Hk Hn. rewrite Z.shiftl_spec, testbit_mod256 by lia.
  destruct (Z.leb_spec k n); simpl.
  - rewrite Z.shiftr_spec by lia. replace (n - k + k) with n by lia.
    f_equal. destruct (Z.ltb_spec (n - k) 8), (Z.ltb_spec n (k + 8)); lia || done.
  - rewrite (Z.testbit_neg_r _ (n - k)) by lia. apply andb_false_r.
Qed.

Lemma octets_join v :
  0 <= v < 2 ^ 32 ->
  Z.lor (Z.lor (Z.lor (v mod 256) (Z.shiftl (Z.shiftr v 8 mod 256) 8))
               (Z.shiftl (Z.shiftr v 16 mod 256) 16))
        (Z.shiftl (Z.shiftr v 24 mod 256) 24) = v.
Proof.
  intros Hv. apply Z.bits_inj'. intros n Hn.
  rewrite !Z.lor_spec, !testbit_octet, testbit_mod256 by lia.
  destruct (Z.ltb_spec n 8), (Z.leb_spec 8 n), (Z.ltb_spec n (8 + 8)),
    (Z.leb_spec 16 n), (Z.ltb_spec n (16 + 8)), (Z.leb_spec 24 n),
    (Z.ltb_spec n (24 + 8)); try lia; simpl;
    rewrite ?orb_false_r; try reflexivity.
  symmetry. destruct (Z.eq_dec v 0) as [->|]; [apply Z.bits_0|].
  apply Z.bits_above_log2; [lia|].
  assert (Z.log2 v < 32); [|lia]. apply Z.log2_lt_pow2; lia.
Qed.

(** Decoding the four bytes that [PutUint32] stores gives the value
    back, whatever follows them. *)
Lemma Uint32_PutUint32 v rest :
  0 <= v < 2 ^ 32 -> Uint32 (PutUint32 v ++ rest) = v.
Proof.
  intros Hv. unfold PutUint32, Uint32. simpl.
  rewrite !of_byte_to_byte. by apply octets_join.
Qed.

Lemma uint32_range z : 0 <= uint32 z < 2 ^ 32.
Proof. unfold uint32. apply Z.mod_pos_bound. lia. Qed.

Lemma uint32_small z : 0 <= z < 2 ^ 32 -> uint32 z = z.
Proof. unfold uint32. intros. by apply Z.mod_small. Qed.

Lemma length_PutUint32 v : length (PutUint32 v) = 4%nat.
Proof. reflexivity. Qed.

Lemma len_app {A} (l k : list A) : len (l ++ k) = len l + len k.
Proof. unfold len. rewrite length_app. lia. Qed.

Lemma len_nonneg {A} (l : list A) : 0 <= len l.
Proof. unfold len. lia. Qed.

(** The prefix of every encoded message is the total length reduced to
    32 bits, and the bytes after it are the payload. *)
Lemma createTcpBuffer_split data :
  Uint32 (take 4 (createTcpBuffer data)) = uint32 (prefixSize + len data)
  /\ drop 4 (createTcpBuffer data) = data.
Proof.
  unfold createTcpBuffer. split.
  - rewrite (take_app_length' _ _ 4) by reflexivity.
    rewrite <- (app_nil_r (PutUint32 _)).
    apply Uint32_PutUint32, uint32_range.
  - by rewrite (drop_app_length' _ _ 4).
Qed.

Lemma len_replicate {A} (z : Z) (x : A) :
  0 <= z -> len (replicate (Z.to_nat z) x) = z.
Proof. intros Hz. unfold len. rewrite length_replicate. lia. Qed.

(** C10, as stated, fails: for a payload of [2^32 - 4] bytes the total
    length [2^32] does not fit the 32-bit prefix, which reads 0. *)
Lemma createTcpBuffer_prefix_wraps :
  Uint32 (take 4 (createTcpBuffer payload_4GiB_less_4)) = 0
  /\ 4 + len payload_4GiB_less_4 = 2 ^ 32
  /\ ~ (forall data : list byte,
          Uint32 (take 4 (createTcpBuffer data)) = 4 + len data
          /\ drop 4 (createTcpBuffer data) = data).
Proof.
  assert (len payload_4GiB_less_4 = 2 ^ 32 - 4) as Hlen
    by (apply len_replicate; lia).
  assert (Uint32 (take 4 (createTcpBuffer payload_4GiB_less_4)) = 0) as H0.
  { rewrite (proj1 (createTcpBuffer_split _)), Hlen. reflexivity. }
  split; [exact H0|]. split; [rewrite Hlen; lia|].
  intros H. destruct (H payload_4GiB_less_4) as [H1 _].
  rewrite H0, Hlen in H1. lia.
Qed.

(** C10 (amended): for every payload whose total length [4 + len] fits in
    32 bits, the first four bytes of [createTcpBuffer payload], read as a
    big-endian unsigned integer, equal [4 + len payload], and the
    remaining bytes are the payload. *)
Theorem createTcpBuffer_prefix (data : list byte) :
  4 + len data < 2 ^ 32 ->
  Uint32 (take 4 (createTcpBuffer data)) = 4 + len data
  /\ drop 4 (createTcpBuffer data) = data.
Proof.
  intros Hfit. destruct (createTcpBuffer_split data) as [Hp Hd].
  split; [|exact Hd].
  rewrite Hp. apply uint32_small. pose proof (len_nonneg data).
  unfold prefixSize. lia.
Qed.

Lemma createTcpBuffer_prefix_witness :
  4 + len [x68; x69] < 2 ^ 32
  /\ Uint32 (take 4 (createTcpBuffer [x68; x69])) = 4 + len [x68; x69]
  /\ drop 4 (createTcpBuffer [x68; x69]) = [x68; x69].
Proof.
  assert (4 + len [x68; x69] < 2 ^ 32) as H by (vm_compute; reflexivity).
  split; [exact H|]. exact (createTcpBuffer_prefix [x68; x69] H).
Defined.

(** *** Reading a frame back *)

Lemma ReadFull_enough pre rest e o wf cl :
  ReadFull (mkConn (pre ++ rest) e o wf cl) (len pre)
  = (Ok pre, mkConn rest e o wf cl).
Proof.
  unfold ReadFull, consume; simpl.
  rewrite len_app. pose proof (len_nonneg rest).
  destruct (Z.leb_spec (len pre) (len pre + len rest)); [|lia].
  unfold len. rewrite Nat2Z.id.
  by rewrite take_app_length, drop_app_length.
Qed.

Lemma uint32_sub_prefix L :
  uint32 (uint32 (prefixSize + L) - prefixSize) = uint32 L.
Proof.
  unfold uint32. rewrite Zminus_mod_idemp_l. f_equal. lia.
Qed.

(** What [Read] returns on a socket that delivers an encoded message:
    the first [len payload mod 2^32] bytes of the payload. *)
Lemma Read_createTcpBuffer payload rest e o wf cl :
  let n := Z.to_nat (uint32 (len payload)) in
  Read (mkConn (createTcpBuffer payload ++ rest) e o wf cl)
  = (Ok (take n payload), mkConn (drop n payload ++ rest) e o wf cl).
Proof.
  intros n. unfold Read, createTcpBuffer.
  rewrite <- app_assoc.
  change prefixSize with (len (PutUint32 (uint32 (4 + len payload)))) at 1.
  rewrite ReadFull_enough.
  rewrite <- (app_nil_r (PutUint32 _)), Uint32_PutUint32 by apply uint32_range.
  change 4 with prefixSize. rewrite uint32_sub_prefix.
  assert (n <= length payload)%nat as Hn.
  { subst n. pose proof (uint32_range (len payload)).
    assert (uint32 (len payload) <= len payload).
    { unfold uint32. apply Z.mod_le; [apply len_nonneg|lia]. }
    unfold len in *. lia. }
  rewrite <- (take_drop n payload) at 1. rewrite <- app_assoc.
  replace (uint32 (len payload)) with (len (take n payload)).
  - by rewrite ReadFull_enough.
  - unfold len. rewrite length_take. subst n.
    pose proof (uint32_range (len payload)). unfold len in *. lia.
Qed.

Lemma Read_createTcpBuffer_4GiB (data : list byte) :
  len data = 2 ^ 32 ->
  Read (stream_of (createTcpBuffer data) StaysOpen)
  = (Ok [], stream_of data StaysOpen).
Proof.
  intros Hlen. unfold stream_of.
  rewrite <- (app_nil_r (createTcpBuffer data)), Read_createTcpBuffer.
  rewrite Hlen. change (Z.to_nat (uint32 (2 ^ 32))) with 0%nat.
  by rewrite take_0, drop_0, app_nil_r.
Qed.

(** C6, as stated, fails: the encoding of a payload of [2^32] bytes has
    prefix 4, and [Read] returns the empty payload. *)
Lemma Read_createTcpBuffer_wraps :
  Read (stream_of (createTcpBuffer payload_4GiB) StaysOpen)
  = (Ok [], stream_of payload_4GiB StaysOpen)
  /\ len payload_4GiB = 2 ^ 32
  /\ ~ (forall (payload : list byte) (e : ending),
          fst (Read (stream_of (createTcpBuffer payload) e)) = Ok payload).
Proof.
  assert (len payload_4GiB = 2 ^ 32) as Hlen.
  { unfold payload_4GiB. apply len_replicate. lia. }
  pose proof (Read_createTcpBuffer_4GiB payload_4GiB Hlen) as HR.
  split; [exact HR|]. split; [exact Hlen|].
  intros H. specialize (H payload_4GiB StaysOpen).
  rewrite HR in H. change (Ok [] = Ok payload_4GiB) in H.
  pose proof (f_equal (fun o => match o with Ok l => l | _ => [] end) H) as E.
  change ([] = payload_4GiB) in E.
  rewrite <- E in Hlen. discriminate Hlen.
Qed.

(** C6 (amended): for every payload shorter than [2^32] bytes, the empty
    one included, [Read] on a socket that delivers exactly
    [createTcpBuffer payload] returns the payload and leaves nothing
    unread, however the stream continues afterwards. *)
Theorem Read_createTcpBuffer_roundtrip (payload : list byte) (e : ending) :
  len payload < 2 ^ 32 ->
  Read (stream_of (createTcpBuffer payload) e) = (Ok payload, stream_of [] e).
Proof.
  intros Hfit. unfold stream_of.
  rewrite <- (app_nil_r (createTcpBuffer _)), Read_createTcpBuffer.
  rewrite uint32_small by (pose proof (len_nonneg payload); lia).
  unfold len. rewrite Nat2Z.id.
  by rewrite take_ge, drop_ge by lia.
Qed.

Lemma Read_createTcpBuffer_roundtrip_witness :
  len [x68; x69] < 2 ^ 32
  /\ Read (stream_of (createTcpBuffer [x68; x69]) (Ends EOF))
     = (Ok [x68; x69], stream_of [] (Ends EOF)).
Proof.
  assert (len [x68; x69] < 2 ^ 32) as H by (vm_compute; reflexivity).
  split; [exact H|].
  exact (Read_createTcpBuffer_roundtrip [x68; x69] (Ends EOF) H).
Defined.

(** *** Streams that end early, and prefixes below [prefixSize] *)

(** [Read] on a stream that ends (with [EOF]) inside the prefix: only the
    stream with no byte at all gives [ErrConnectionClosed]; after one to
    three bytes [io.ReadFull] reports [ErrUnexpectedEOF], which
    [errors.Is(err, io.EOF)] does not match. *)
Lemma Read_eof_in_prefix (bs : list byte) :
  len bs < prefixSize ->
  fst (Read (stream_of bs (Ends EOF)))
  = if decide (bs = []) then Err ErrConnectionClosed else Err ErrUnexpectedEOF.
Proof.
  intros Hlt. unfold Read, ReadFull, stream_of; simpl.
  destruct (Z.leb_spec prefixSize (len bs)); [lia|].
  destruct bs as [|b bs]; [reflexivity|].
  replace (0 <? len (b :: bs)) with true; [reflexivity|].
  symmetry. apply Z.ltb_lt. unfold len; simpl; lia.
Qed.

(** A transport error that is not [EOF] comes back unchanged, from the
    prefix read as from the payload read. *)
Lemma Read_other_error_in_prefix (bs : list byte) (e : error) :
  len bs < prefixSize -> errors_Is e EOF = false ->
  fst (Read (stream_of bs (Ends e))) = Err e.
Proof.
  intros Hlt He. unfold Read, ReadFull, stream_of; simpl.
  destruct (Z.leb_spec prefixSize (len bs)); [lia|].
  assert (e <> EOF) as Hne.
  { intros ->. discriminate He. }
  rewrite bool_decide_eq_false_2, andb_false_r by done. by rewrite He.
Qed.

(** C5: a stream that ends after two bytes of the prefix, and a stream
    that announces a two-byte payload and ends after one byte of it, make
    [Read] return [io.ErrUnexpectedEOF], not [ErrConnectionClosed]. *)
Theorem Read_truncated_stream_not_ConnectionClosed :
  Read (stream_of [x00; x00] (Ends EOF))
  = (Err ErrUnexpectedEOF, stream_of [] (Ends EOF))
  /\ Read (stream_of [x00; x00; x00; x06; x68] (Ends EOF))
     = (Err ErrUnexpectedEOF, stream_of [] (Ends EOF))
  /\ Read (stream_of [] (Ends EOF))
     = (Err ErrConnectionClosed, stream_of [] (Ends EOF))
  /\ Read (stream_of [x00; x00; x00; x06] (Ends EOF))
     = (Err ErrConnectionClosed, stream_of [] (Ends EOF)).
Proof. repeat split; vm_compute; reflexivity. Qed.

Lemma Uint32_nonneg (b : list byte) : 0 <= Uint32 b.
Proof.
  unfold Uint32. destruct b as [|b0 [|b1 [|b2 [|b3 ?]]]]; try lia.
  rewrite !Z.lor_nonneg, !Z.shiftl_nonneg. unfold of_byte. lia.
Qed.

(** After a prefix whose value is below [prefixSize], [Read] asks
    [io.ReadFull] for [value + 2^32 - 4] bytes: the subtraction
    [totalDataLength-prefixSize] is done on [uint32] and wraps. *)
Lemma Read_prefix_below_4 (b0 b1 b2 b3 : byte) (rest : list byte) (e : ending) :
  Uint32 [b0; b1; b2; b3] < prefixSize ->
  Read (stream_of (b0 :: b1 :: b2 :: b3 :: rest) e)
  = match ReadFull (stream_of rest e) (Uint32 [b0; b1; b2; b3] + 2 ^ 32 - 4) with
    | (Err err, c) =>
        if errors_Is err EOF then (Err ErrConnectionClosed, c) else (Err err, c)
    | r => r
    end.
Proof.
  intros Hlt. unfold Read.
  change (b0 :: b1 :: b2 :: b3 :: rest) with ([b0; b1; b2; b3] ++ rest).
  unfold stream_of.
  change prefixSize with (len [b0; b1; b2; b3]) at 1.
  rewrite ReadFull_enough.
  pose proof (Uint32_nonneg [b0; b1; b2; b3]) as Hv.
  set (v := Uint32 [b0; b1; b2; b3]) in *.
  replace (uint32 (v - prefixSize)) with (v + 2 ^ 32 - 4).
  - by destruct (ReadFull _ _) as [[?|?|] ?].
  - unfold uint32, prefixSize in *.
    rewrite <- (Z.mod_small (v + 2 ^ 32 - 4) (2 ^ 32)) by lia.
    rewrite <- (Z_mod_plus_full (v - 4) 1 (2 ^ 32)). f_equal. lia.
Qed.

(** C4: on a stream whose prefix decodes to 2, [Read] does not fail on
    the prefix: it computes the payload length [2 - 4] on [uint32], which
    is 4294967294, and reads on.  On a connection that stays open it
    consumes the bytes that follow and keeps waiting for more; when the
    peer closes, the error is the one of the payload read. *)
Theorem Read_prefix_below_4_underflows :
  Uint32 [x00; x00; x00; x02] = 2
  /\ uint32 (Uint32 [x00; x00; x00; x02] - prefixSize) = 4294967294
  /\ Read (stream_of [x00; x00; x00; x02; x68; x69] StaysOpen)
     = (Blocks, stream_of [] StaysOpen)
  /\ Read (stream_of [x00; x00; x00; x02; x68; x69] (Ends EOF))
     = (Err ErrUnexpectedEOF, stream_of [] (Ends EOF)).
Proof. repeat split; vm_compute; reflexivity. Qed.

End FramingFacts.

(** * Properties of the pool *)
Module PoolFacts.
Import Framing Pool.

Lemma run_release_locked c w :
  mu (pool w) = true -> run (release c) w = Stuck MuLock w.
Proof. intros H. unfold run, release. cbn. by rewrite H. Qed.

(** The guard of [release] is the comparison of the size of the idle map
    with [maxIdleCount]: the first conjunct follows from the second. *)
Lemma release_guard w :
  (0 <? maxIdleCount (pool w))
  && (Z.of_nat (size (idleConns (pool w))) <? maxIdleCount (pool w))
  = (numIdleConns w <? maxIdleCount (pool w)).
Proof.
  unfold numIdleConns.
  destruct (Z.ltb_spec 0 (maxIdleCount (pool w))),
    (Z.ltb_spec (Z.of_nat (size (idleConns (pool w)))) (maxIdleCount (pool w)));
    simpl; lia || done.
Qed.

(** What one [release] does when the mutex is free. *)
Lemma run_release c w :
  mu (pool w) = false ->
  let w' := after (run (release c) w) in
  run (release c) w = Done tt w'
  /\ mu (pool w') = false
  /\ maxIdleCount (pool w') = maxIdleCount (pool w)
  /\ if numIdleConns w <? maxIdleCount (pool w)
     then idleConns (pool w') = <[id c := c]> (idleConns (pool w))
          /\ socks w' = socks w
          /\ numOpen (pool w') = numOpen (pool w)
     else idleConns (pool w') = idleConns (pool w)
          /\ socks w' = alter Close (conn c) (socks w)
          /\ numOpen (pool w') = int (numOpen (pool w) - 1).
Proof.
  intros H. rewrite <- release_guard. unfold run, release. cbn. rewrite H. cbn.
  destruct ((0 <? maxIdleCount (pool w))
            && (Z.of_nat (size (idleConns (pool w))) <? maxIdleCount (pool w)));
    cbn; auto 10.
Qed.

Lemma size_insert_le (m : gmap string tcpConn) k c :
  (size (<[k := c]> m) <= S (size m))%nat.
Proof.
  destruct (m !! k) eqn:E.
  - rewrite map_size_insert_Some by eauto. lia.
  - rewrite map_size_insert_None by done. lia.
Qed.

(** One [release] never makes the idle map larger than the larger of its
    size and [maxIdleCount]. *)
Lemma release_idle_bound c w :
  let w' := after (run (release c) w) in
  maxIdleCount (pool w') = maxIdleCount (pool w)
  /\ numIdleConns w' <= Z.max (numIdleConns w) (maxIdleCount (pool w)).
Proof.
  destruct (mu (pool w)) eqn:Hmu.
  - rewrite run_release_locked by done. simpl. lia.
  - destruct (run_release c w Hmu) as (_ & _ & Hmax & Hcase).
    split; [exact Hmax|].
    destruct (Z.ltb_spec (numIdleConns w) (maxIdleCount (pool w))).
    + destruct Hcase as (Hi & _). unfold numIdleConns in *. rewrite Hi.
      pose proof (size_insert_le (idleConns (pool w)) (id c) c). lia.
    + destruct Hcase as (Hi & _). unfold numIdleConns in *. rewrite Hi. lia.
Qed.

Lemma releaseAll_snoc cs c w :
  releaseAll (cs ++ [c]) w = after (run (release c) (releaseAll cs w)).
Proof. unfold releaseAll. by rewrite foldl_app. Qed.

Lemma releaseAll_idle_bound cs w :
  maxIdleCount (pool (releaseAll cs w)) = maxIdleCount (pool w)
  /\ numIdleConns (releaseAll cs w)
     <= Z.max (numIdleConns w) (maxIdleCount (pool w)).
Proof.
  induction cs as [|c cs IH] using rev_ind.
  - simpl. lia.
  - rewrite releaseAll_snoc. destruct IH as [IH1 IH2].
    destruct (release_idle_bound c (releaseAll cs w)) as [H1 H2].
    split; [congruence|]. rewrite IH1 in H2. lia.
Qed.

(** C7: from a state in which the idle map holds at most [maxIdleCount]
    entries, after every sequence of calls of [release], and after one
    more, it still does.  That last [release] (when the mutex is free, so
    that it runs) stores the connection in the idle map exactly when the
    map holds fewer than [maxIdleCount] entries; otherwise it leaves the
    map as it is, closes the socket and decrements [numOpen]. *)
Theorem release_keeps_idle_cap (w : world) (cs : list tcpConn) (c : tcpConn) :
  numIdleConns w <= maxIdleCount (pool w) ->
  let w1 := releaseAll cs w in
  let w2 := after (run (release c) w1) in
  numIdleConns w1 <= maxIdleCount (pool w)
  /\ numIdleConns w2 <= maxIdleCount (pool w)
  /\ (mu (pool w1) = false ->
      if numIdleConns w1 <? maxIdleCount (pool w)
      then idleConns (pool w2) = <[id c := c]> (idleConns (pool w1))
           /\ socks w2 = socks w1
           /\ numOpen (pool w2) = numOpen (pool w1)
      else idleConns (pool w2) = idleConns (pool w1)
           /\ socks w2 = alter Close (conn c) (socks w1)
           /\ numOpen (pool w2) = int (numOpen (pool w1) - 1)).
Proof.
  intros Hcap w1 w2.
  destruct (releaseAll_idle_bound cs w) as [Hm1 Hb1].
  destruct (releaseAll_idle_bound (cs ++ [c]) w) as [Hm2 Hb2].
  rewrite releaseAll_snoc in Hm2, Hb2. fold w1 in Hm1, Hb1, Hm2, Hb2.
  fold w2 in Hm2, Hb2.
  split; [lia|]. split; [lia|].
  intros Hmu. destruct (run_release c w1 Hmu) as (_ & _ & _ & Hcase).
  rewrite Hm1 in Hcase. exact Hcase.
Qed.


Lemma release_keeps_idle_cap_witness :
  numIdleConns w7 <= maxIdleCount (pool w7)
  /\ numIdleConns (releaseAll [c7] w7) <= maxIdleCount (pool w7)
  /\ numIdleConns (after (run (release c8) (releaseAll [c7] w7)))
     <= maxIdleCount (pool w7).
Proof.
  assert (numIdleConns w7 <= maxIdleCount (pool w7)) as H
    by (vm_compute; discriminate).
  split; [exact H|].
  pose proof (release_keeps_idle_cap w7 [c7] c8 H) as (H1 & H2 & _).
  split; [exact H1 | exact H2].
Defined.

(** *** [get] *)

(** What [get] does to the idle map, and which connection it returns:
    either it returns the entry that the iteration over the idle map
    yields, after deleting the key [c.id]; or it leaves the idle map alone,
    and a connection it returns was opened just now. *)
Lemma run_get_idle w :
  (exists c w', run get w = Done (inl c) w'
      /\ rangeNext w (idleConns (pool w)) = Some c
      /\ idleConns (pool w') = delete (id c) (idleConns (pool w)))
  \/ (idleConns (pool (after (run get w))) = idleConns (pool w)
      /\ forall c w', run get w = Done (inl c) w' -> id c = pretty (now w)).
Proof.
  unfold run, get. cbn.
  destruct (mu (pool w)) eqn:Hmu; cbn.
  { right. split; [done|]. intros c w' [=]. }
  destruct (0 <? numIdleConns (with_pool (set_mu true) w)) eqn:Hn; cbn.
  - destruct (rangeNext w (idleConns (pool w))) as [c|] eqn:Hr; cbn.
    + left. eauto.
    + right.
      destruct ((0 <? maxOpenCount (pool w))
                && (maxOpenCount (pool w) <=? numOpen (pool w))); cbn.
      * destruct (len (requestChan (pool w)) <? maxQueueLength); cbn;
          [|split; [done|intros ? ? [=]]].
        rewrite list_lookup_middle by done. cbn.
        split; [done|intros ? ? [=]].
      * destruct (dialNext w); cbn; split; try done; intros ? ? [=]; by subst.
  - right.
    destruct ((0 <? maxOpenCount (pool w))
              && (maxOpenCount (pool w) <=? numOpen (pool w))); cbn.
    * destruct (len (requestChan (pool w)) <? maxQueueLength); cbn;
        [|split; [done|intros ? ? [=]]].
      rewrite list_lookup_middle by done. cbn.
      split; [done|intros ? ? [=]].
    * destruct (dialNext w); cbn; split; try done; intros ? ? [=]; by subst.
Qed.

(** A caller that finds the pool at its limit is queued, and waits in
    the [select] with the mutex locked. *)
Lemma run_get_queued w :
  mu (pool w) = false -> idleConns (pool w) = ∅ ->
  0 < maxOpenCount (pool w) <= numOpen (pool w) ->
  len (requestChan (pool w)) < maxQueueLength ->
  exists w', run get w = Stuck (Select (length (requests w))) w'
             /\ mu (pool w') = true.
Proof.
  intros Hmu Hidle [Hpos Hcap] Hq. unfold run, get. cbn. rewrite Hmu. cbn.
  unfold numIdleConns. cbn. rewrite Hidle, map_size_empty.
  change (0 <? Z.of_nat 0) with false. cbn.
  replace (0 <? maxOpenCount (pool w)) with true by (symmetry; by apply Z.ltb_lt).
  replace (maxOpenCount (pool w) <=? numOpen (pool w)) with true
    by (symmetry; by apply Z.leb_le).
  cbn. replace (len (requestChan (pool w)) <? maxQueueLength) with true
    by (symmetry; by apply Z.ltb_lt).
  cbn. rewrite list_lookup_middle by done. cbn. eauto.
Qed.

(** *** At most one owner *)

Lemma range_ok_rangeFirst : range_ok rangeFirst.
Proof.
  intros m. unfold rangeFirst.
  destruct (map_to_list m) as [|[k c] l] eqn:E; simpl.
  - by apply map_to_list_empty_iff.
  - exists k. apply elem_of_map_to_list. rewrite E. left.
Qed.

Lemma owner_inv_get w inUse :
  range_ok (rangeNext w) -> fresh_id w inUse -> owner_inv w inUse ->
  owner_inv (after (run get w))
            (match run get w with
             | Done (inl c) _ => c :: inUse
             | _ => inUse
             end).
Proof.
  intros Hrange [Hfi Hfu] (Hkeys & Hnd & Hdis).
  destruct (run_get_idle w) as [(c & w' & Hrun & Hpick & Hidle)|[Hidle Hnew]].
  - rewrite Hrun. simpl. specialize (Hrange (idleConns (pool w))).
    rewrite Hpick in Hrange. destruct Hrange as [k Hk].
    pose proof (Hkeys _ _ Hk) as <-.
    split; [|split].
    + intros k' c'. rewrite Hidle, lookup_delete_Some. intros [_ H]. eauto.
    + rewrite fmap_cons. apply NoDup_cons. split; [|done].
      intros Hin. apply list_elem_of_fmap in Hin as (c' & Heq & Hc').
      apply Hdis in Hc'. rewrite <- Heq in Hc'. congruence.
    + intros c' Hc'. rewrite Hidle. apply elem_of_cons in Hc' as [->|Hc'].
      * apply lookup_delete_eq.
      * apply lookup_delete_None. right. by apply Hdis.
  - destruct (run get w) as [[c|e] w'| |] eqn:Hrun; simpl in *;
      try (split; [|split]; rewrite ?Hidle; by auto).
    pose proof (Hnew _ _ eq_refl) as Hid.
    split; [|split].
    + rewrite Hidle. auto.
    + rewrite fmap_cons. apply NoDup_cons. split; [|done].
      intros Hin. apply list_elem_of_fmap in Hin as (c' & Heq & Hc').
      apply (Hfu _ Hc'). congruence.
    + intros c' Hc'. rewrite Hidle. apply elem_of_cons in Hc' as [->|Hc'].
      * by rewrite Hid.
      * by apply Hdis.
Qed.

Lemma owner_inv_release w held c held' :
  owner_inv w (held ++ c :: held') ->
  owner_inv (after (run (release c) w)) (held ++ held').
Proof.
  intros (Hkeys & Hnd & Hdis).
  assert (NoDup (id <$> held ++ held')) as Hnd'.
  { rewrite fmap_app in *. rewrite fmap_cons in Hnd.
    apply NoDup_app in Hnd as (H1 & H2 & H3). apply NoDup_cons in H3 as [_ H3].
    apply NoDup_app. split; [done|]. split; [|done].
    intros x Hx Hx'. apply (H2 x Hx). by right. }
  assert (forall c', c' ∈ held ++ held' -> id c' <> id c) as Hne.
  { intros c' Hc' Heq. rewrite fmap_app, fmap_cons in Hnd.
    apply NoDup_app in Hnd as (H1 & H2 & H3). apply NoDup_cons in H3 as [H3 _].
    apply elem_of_app in Hc' as [Hc'|Hc'].
    - apply (H2 (id c')); [by apply list_elem_of_fmap_2|]. rewrite Heq. left.
    - apply H3. rewrite <- Heq. by apply list_elem_of_fmap_2. }
  assert (forall c', c' ∈ held ++ held' -> c' ∈ held ++ c :: held') as Hsub.
  { intros c'. rewrite !elem_of_app, elem_of_cons. tauto. }
  destruct (mu (pool w)) eqn:Hmu.
  { rewrite run_release_locked by done. simpl. split; [done|]. split; auto. }
  destruct (run_release c w Hmu) as (_ & _ & _ & Hcase).
  destruct (numIdleConns w <? maxIdleCount (pool w));
    destruct Hcase as (Hidle & _); unfold owner_inv; rewrite Hidle.
  - split; [|split; [done|]].
    + intros k c'. rewrite lookup_insert_Some. intros [[<- <-]|[_ H]]; eauto.
    + intros c' Hc'. rewrite lookup_insert_ne by (apply not_eq_sym; auto). auto.
  - split; [done|]. split; auto.
Qed.

Lemma reachable_owner_inv w inUse : reachable w inUse -> owner_inv w inUse.
Proof.
  induction 1 as [cfg t dial|w u t ss dial range _ IH|w u _ IH Hr Hf
                 |w held c held' _ IH].
  - split; [|split]; simpl.
    + intros k c. by rewrite lookup_empty.
    + constructor.
    + intros c Hc. by apply elem_of_nil in Hc.
  - exact IH.
  - by apply owner_inv_get.
  - by apply owner_inv_release.
Qed.

(** C8: in every state that sequences of [get] and [release] lead to, no
    connection that a caller holds has its identifier in the idle map, and
    the connections held have distinct identifiers. *)
Theorem at_most_one_owner (w : world) (inUse : list tcpConn) :
  reachable w inUse ->
  (forall c, c ∈ inUse -> idleConns (pool w) !! id c = None)
  /\ NoDup (id <$> inUse).
Proof.
  intros H. destruct (reachable_owner_inv w inUse H) as (_ & Hnd & Hdis).
  by split.
Qed.

Lemma at_most_one_owner_witness :
  reachable w_held [c_held]
  /\ (forall c, c ∈ [c_held] -> idleConns (pool w_held) !! id c = None)
  /\ NoDup (id <$> [c_held]).
Proof.
  assert (reachable w_held [c_held]) as H.
  { pose proof (reach_get (start testConfig 1000 (inr (stream_of [] StaysOpen))) []
                  (reach_start _ _ _) range_ok_rangeFirst) as Hg.
    apply Hg. split; [reflexivity|].
    intros c Hc. by apply elem_of_nil in Hc. }
  split; [exact H|]. exact (at_most_one_owner w_held [c_held] H).
Defined.

(** *** The mutex and the open counter *)

(** C3: in the pool of the repository's test (at most one open
    connection) whose connection is in use, [get] queues a request and
    waits in its [select] without having unlocked the mutex; a [release]
    by the caller that holds the connection then waits for the mutex. *)
Theorem get_waits_with_mutex_locked :
  mu (pool w_held) = false
  /\ run get w_held = Stuck (Select 0) w_queued
  /\ mu (pool w_queued) = true
  /\ requests w_queued = [mkRequest None None]
  /\ run (release c_held) w_queued = Stuck MuLock w_queued.
Proof. repeat split; vm_compute; reflexivity. Qed.

(** [terminate] leaves [numOpen] as it was. *)
Lemma terminate_numOpen c w :
  exists w', run (terminate c) w = Done tt w'
             /\ numOpen (pool w') = numOpen (pool w)
             /\ socks w' = alter Close (conn c) (socks w)
             /\ idleConns (pool w') = delete (id c) (idleConns (pool w)).
Proof. unfold run, terminate. cbn. eauto. Qed.

(** C2: a [SendData] on a fresh pool whose server closes the connection
    before it answers: the connection is opened ([numOpen] becomes 1), the
    read fails, [terminate] closes the socket, and [numOpen] is still 1
    while no connection of the pool is open; the idle map is empty. *)
Theorem terminate_keeps_numOpen :
  run (SendData [x68; x69]) w_hangup = Done (inr ErrConnectionClosed) w_leaked
  /\ numOpen (pool w_leaked) = 1
  /\ openConns w_leaked = 0
  /\ idleConns (pool w_leaked) = ∅
  /\ mu (pool w_leaked) = false.
Proof. repeat split; vm_compute; reflexivity. Qed.

End PoolFacts.

(** * Properties of the goroutines *)
Module SchedFacts.
Import Framing Pool Sched.

Lemma reaches_trans s1 s2 s3 : reaches s1 s2 -> reaches s2 s3 -> reaches s1 s3.
Proof. induction 1; eauto using reaches. Qed.

Lemma play_reaches es s s' : play es s = Some s' -> reaches s s'.
Proof.
  revert s. induction es as [|e es IH]; intros s; simpl.
  - intros [= ->]. constructor.
  - destruct (fire e s) as [s1|] eqn:E; [|done].
    intros H. eapply reaches_next; eauto.
Qed.

(** A step of a quiet program under a locked mutex. *)
Lemma quiet_step {A} (p p' : prog A) w w' :
  quiet p -> mu (pool w) = true -> step p w = Some (p', w') ->
  quiet p' /\ mu (pool w') = true /\ requests w' = requests w.
Proof.
  intros Hq Hmu Hs. destruct Hq as [a|B o f k H1 H2 H3]; simpl in Hs; [done|].
  destruct (f w) as [[b w1]|] eqn:Hf; [|done].
  injection Hs as <- <-. split; [|split]; eauto.
Qed.

Ltac quiet_op :=
  let Hmu := fresh "Hmu" in
  let Hf := fresh "Hf" in
  apply quiet_Do; intros ? ? ? Hmu Hf;
  cbn in Hf; repeat case_match; simplify_eq; cbn; try done.

(** What a caller does with the connection it holds is quiet: it works
    on its socket, and [terminate] touches neither the mutex nor a request;
    [release] starts by waiting for the mutex. *)
Lemma quiet_sendOn c data : quiet (sendOn c data).
Proof.
  unfold sendOn. cbn.
  repeat first [apply quiet_Ret | quiet_op].
Qed.

(** In the state [s_stuck] the second caller is in the [select] of its
    request, and the worker is about to lock the mutex. *)
Lemma waiter_stuck : waiter s_stuck = selectRequest 0.
Proof. vm_compute. reflexivity. Qed.

Lemma worker_stuck w :
  mu (pool w) = true -> step (worker s_stuck) w = None.
Proof.
  intros Hmu. destruct w as [[h p m i n mo mi q] ss rq t d r].
  simpl in Hmu. subst m. vm_compute. reflexivity.
Qed.

Lemma waiter_stuck_step w :
  requests w = [mkRequest None None] -> step (selectRequest 0) w = None.
Proof. intros H. unfold selectRequest. simpl. by rewrite H. Qed.

Lemma stuck_s_stuck : stuck s_stuck.
Proof.
  split; [vm_compute; reflexivity|]. split; [vm_compute; reflexivity|].
  split; [apply waiter_stuck|]. split; [reflexivity|].
  change (holder s_stuck) with (sendOn c_held [x68; x69]).
  apply quiet_sendOn.
Qed.

Lemma stuck_fire e s s' : stuck s -> fire e s = Some s' -> stuck s'.
Proof.
  intros (Hmu & Hreq & Hwt & Hwk & Hq) Hf. destruct e; simpl in Hf.
  - destruct (step (holder s) (mem s)) as [[p w]|] eqn:Hs; [|done].
    injection Hf as <-.
    destruct (quiet_step _ _ _ _ Hq Hmu Hs) as (Hq' & Hmu' & Hreq').
    repeat split; simpl; try done. congruence.
  - rewrite Hwt, waiter_stuck_step in Hf by done. done.
  - rewrite Hwk, worker_stuck in Hf by done. done.
  - destruct (0 <? d); [|done]. injection Hf as <-. by repeat split.
  - injection Hf as <-. by repeat split.
Qed.

Lemma stuck_reaches s s' : stuck s -> reaches s s' -> stuck s'.
Proof. intros Hs Hr. induction Hr; eauto using stuck_fire. Qed.

(** Every event of the schedule [queue_then_poll] is enabled in its
    turn. *)
Lemma play_queue_then_poll : play queue_then_poll s_held = Some s_stuck.
Proof.
  assert (bool_decide (is_Some (play queue_then_poll s_held)) = true) as H
    by (vm_compute; reflexivity).
  apply bool_decide_eq_true in H. destruct H as [s Hs].
  unfold s_stuck. by rewrite Hs.
Qed.

(** C1: in the pool of the repository's test, with its one connection
    held by a first caller, the second caller queues its request and the
    worker takes it and polls once (the schedule [queue_then_poll]).  From
    the state this leads to, whatever happens next and however much time
    passes, the second caller is still waiting in its [select], no error
    was sent to it and the mutex is still locked; and states in which
    more than the three seconds have passed are among those reached. *)
Theorem queued_caller_never_times_out :
  play queue_then_poll s_held = Some s_stuck
  /\ (forall s, reaches s_stuck s ->
        next_op (waiter s) = Some (Select 0)
        /\ requests (mem s) = [mkRequest None None]
        /\ mu (pool (mem s)) = true)
  /\ (forall d, 0 < d ->
        exists s, reaches s_stuck s /\ now (mem s) = now (mem s_stuck) + d).
Proof.
  split; [exact play_queue_then_poll|]. split.
  - intros s Hr.
    destruct (stuck_reaches _ _ stuck_s_stuck Hr) as (Hmu & Hreq & Hwt & _).
    rewrite Hwt. auto.
  - intros d Hd.
    destruct (fire (Tick d) s_stuck) as [s|] eqn:Hf.
    + exists s. split; [eapply reaches_next; [exact Hf|constructor]|].
      simpl in Hf. destruct (0 <? d); [|done]. by injection Hf as <-.
    + simpl in Hf. apply Z.ltb_lt in Hd. by rewrite Hd in Hf.
Qed.

End SchedFacts.

(** * Properties of the dispatcher *)
Module DispatchFacts.
Import Framing Dispatch.

Section Handlers.
Context {obj : Type} {json : Codec obj}.

(** One iteration of the loop never assigns to [handlers]. *)
Lemma serve_handlers (st : server obj) (c : netConn) :
  handlers (server_of (serve st c)) = handlers st.
Proof.
  unfold serve.
  repeat (case_match; simpl; try reflexivity).
Qed.

Lemma serveLoop_handlers n (st : server obj) (c : netConn) :
  handlers (server_of (serveLoop n st c)) = handlers st.
Proof.
  revert st c. induction n as [|n IH]; intros st c; simpl; [done|].
  pose proof (serve_handlers st c) as H.
  destruct (serve st c) as [st' c'|err st' c'|st' c']; simpl in *; try done.
  by rewrite IH.
Qed.

(** C9 (amended): whatever arrives on the socket, [HandleClientConnection]
    leaves the registry map as it was: the same commands, each with the
    same [HandlerConfig] (its [Command], its [Handler] and the addresses
    [Request] and [Response]). *)
Theorem HandleClientConnection_keeps_handlers (st : server obj) (c : netConn) :
  handlers (server_of (HandleClientConnection st c)) = handlers st.
Proof. apply serveLoop_handlers. Qed.

End Handlers.

(** C9, as stated, fails: one login message makes [HandleClientConnection]
    overwrite the [Request] object of the registered [HandlerConfig]
    (by decoding into it) and its [Response] object (the handler writes
    the message). *)
Lemma HandleClientConnection_overwrites_shapes :
  let st := login_server in
  let r := HandleClientConnection st
             (stream_of (createTcpBuffer envelope_bytes) (Ends EOF)) in
  handlers st !! CmdLoginUser = Some login_config
  /\ heap st = [LoginUserRequest "" ""; LoginUserResponse 0 ""]
  /\ heap (server_of r) = [LoginUserRequest "a" "b"; LoginUserResponse 0 "Got it!"]
  /\ ~ (forall (json : Codec shape) (st : server shape) (c : netConn) k hc,
          handlers st !! k = Some hc ->
          heap (server_of (HandleClientConnection st c)) !! Request hc
          = heap st !! Request hc
          /\ heap (server_of (HandleClientConnection st c)) !! Response hc
             = heap st !! Response hc).
Proof.
  assert (handlers login_server !! CmdLoginUser = Some login_config) as Hh
    by (vm_compute; reflexivity).
  split; [exact Hh|]. split; [reflexivity|]. split; [vm_compute; reflexivity|].
  intros H.
  destruct (H sample_json login_server
              (stream_of (createTcpBuffer envelope_bytes) (Ends EOF))
              CmdLoginUser login_config Hh) as [H1 _].
  vm_compute in H1. discriminate H1.
Qed.

End DispatchFacts.


Module FramingMore.
Import Framing FramingFacts.

(** *** Incomplete frames *)

(** [io.ReadFull] on a socket that has fewer bytes than asked for. *)
Lemma ReadFull_short bs e n :
  len bs < n ->
  ReadFull (stream_of bs e) n
  = (match e with
     | Ends err =>
         Err (if (0 <? len bs) && bool_decide (err = EOF)
              then ErrUnexpectedEOF else err)
     | StaysOpen => Blocks
     end, stream_of [] e).
Proof.
  intros Hlt. unfold ReadFull, stream_of, consume; simpl.
  destruct (Z.leb_spec n (len bs)); [lia|].
  rewrite drop_all. destruct e as [err|]; [|done].
  by destruct ((0 <? len bs) && bool_decide (err = EOF)).
Qed.

(** What [Read] makes of the first [k] bytes of an encoded message,
    when [k] is less than the length of the message. *)
Lemma Read_incomplete (payload : list byte) (k : nat) (e : ending) :
  len payload < 2 ^ 32 -> (k < 4 + length payload)%nat ->
  Read (stream_of (take k (createTcpBuffer payload)) e)
  = (match e with
     | StaysOpen => Blocks
     | Ends err =>
         let err' := if bool_decide (k <> 0%nat /\ k <> 4%nat)
                        && bool_decide (err = EOF)
                     then ErrUnexpectedEOF else err in
         Err (if errors_Is err' EOF then ErrConnectionClosed else err')
     end, stream_of [] e).
Proof.
  intros Hfit Hk. unfold Read.
  destruct (decide (k < 4)%nat) as [Hk4|Hk4].
  - rewrite ReadFull_short.
    2:{ unfold len, prefixSize. rewrite length_take. lia. }
    destruct e as [err|]; [|done]. cbn zeta.
    replace (0 <? len (take k (createTcpBuffer payload)))
      with (bool_decide (k <> 0%nat /\ k <> 4%nat));
      [cbn; by destruct (errors_Is _ EOF)|].
    unfold len, createTcpBuffer. rewrite length_take, length_app. simpl.
    case_bool_decide; [symmetry; apply Z.ltb_lt|symmetry; apply Z.ltb_ge]; lia.
  - unfold createTcpBuffer.
    rewrite (take_app_ge _ _ k) by (simpl; lia).
    rewrite length_PutUint32.
    change prefixSize with (len (PutUint32 (uint32 (4 + len payload)))) at 1.
    unfold stream_of at 1. rewrite ReadFull_enough.
    rewrite <- (app_nil_r (PutUint32 _)), Uint32_PutUint32 by apply uint32_range.
    change 4 with prefixSize at 1. rewrite uint32_sub_prefix.
    rewrite uint32_small by (pose proof (len_nonneg payload); lia).
    change (mkConn ?b ?e [] None false) with (stream_of b e).
    rewrite ReadFull_short.
    2:{ unfold len. rewrite length_take. lia. }
    destruct e as [err|]; [|done]. cbn zeta.
    replace (0 <? len (take (k - 4) payload))
      with (bool_decide (k <> 0%nat /\ k <> 4%nat));
      [cbn; by destruct (errors_Is _ EOF)|].
    unfold len. rewrite length_take.
    case_bool_decide; [symmetry; apply Z.ltb_lt|symmetry; apply Z.ltb_ge]; lia.
Qed.

(** X1: a connection that stays open and has delivered only the first
    [k] bytes of an encoded message keeps [Read] waiting: it never returns
    a shortened payload. *)
Theorem Read_incomplete_frame_waits (payload : list byte) (k : nat) :
  len payload < 2 ^ 32 -> (k < 4 + length payload)%nat ->
  Read (stream_of (take k (createTcpBuffer payload)) StaysOpen)
  = (Blocks, stream_of [] StaysOpen).
Proof. intros Hfit Hk. by rewrite Read_incomplete. Qed.

Lemma Read_incomplete_frame_waits_witness :
  len [x68; x69] < 2 ^ 32 /\ (5 < 4 + length [x68; x69])%nat
  /\ Read (stream_of (take 5 (createTcpBuffer [x68; x69])) StaysOpen)
     = (Blocks, stream_of [] StaysOpen).
Proof.
  assert (len [x68; x69] < 2 ^ 32) as H1 by (vm_compute; reflexivity).
  assert (5 < 4 + length [x68; x69])%nat as H2 by (simpl; lia).
  split; [exact H1|]. split; [exact H2|].
  exact (Read_incomplete_frame_waits [x68; x69] 5 H1 H2).
Defined.

(** X2: when the peer closes after the first [k] bytes of an encoded
    message, [Read] returns [ErrConnectionClosed] if the stream ended on
    the boundary before the prefix or before the payload ([k] is 0 or 4),
    and [io.ErrUnexpectedEOF] if it ended inside the prefix or inside the
    payload. *)
Theorem Read_incomplete_frame_eof (payload : list byte) (k : nat) :
  len payload < 2 ^ 32 -> (k < 4 + length payload)%nat ->
  Read (stream_of (take k (createTcpBuffer payload)) (Ends EOF))
  = (Err (if decide (k = 0%nat \/ k = 4%nat)
          then ErrConnectionClosed else ErrUnexpectedEOF),
     stream_of [] (Ends EOF)).
Proof.
  intros Hfit Hk. rewrite Read_incomplete by done. cbn zeta.
  rewrite (bool_decide_eq_true_2 (EOF = EOF)) by done. rewrite andb_true_r.
  case_bool_decide; destruct (decide (k = 0%nat \/ k = 4%nat)); try lia; done.
Qed.

Lemma Read_incomplete_frame_eof_witness :
  len [x68; x69] < 2 ^ 32 /\ (5 < 4 + length [x68; x69])%nat
  /\ Read (stream_of (take 5 (createTcpBuffer [x68; x69])) (Ends EOF))
     = (Err ErrUnexpectedEOF, stream_of [] (Ends EOF)).
Proof.
  assert (len [x68; x69] < 2 ^ 32) as H1 by (vm_compute; reflexivity).
  assert (5 < 4 + length [x68; x69])%nat as H2 by (simpl; lia).
  split; [exact H1|]. split; [exact H2|].
  exact (Read_incomplete_frame_eof [x68; x69] 5 H1 H2).
Defined.

(** X3: when the transport fails, with an error that is not and does not
    wrap [io.EOF], before an encoded message is complete, [Read] returns
    that error unchanged, wherever in the message it happens. *)
Theorem Read_incomplete_frame_error (payload : list byte) (k : nat) (e : error) :
  len payload < 2 ^ 32 -> (k < 4 + length payload)%nat ->
  errors_Is e EOF = false ->
  Read (stream_of (take k (createTcpBuffer payload)) (Ends e))
  = (Err e, stream_of [] (Ends e)).
Proof.
  intros Hfit Hk He. rewrite Read_incomplete by done. cbn zeta.
  assert (e <> EOF) as Hne by (intros ->; discriminate He).
  rewrite (bool_decide_eq_false_2 (e = EOF)) by done. rewrite andb_false_r.
  by rewrite He.
Qed.

Lemma Read_incomplete_frame_error_witness :
  len [x68; x69] < 2 ^ 32 /\ (5 < 4 + length [x68; x69])%nat
  /\ errors_Is (NetError "reset") EOF = false
  /\ Read (stream_of (take 5 (createTcpBuffer [x68; x69]))
                     (Ends (NetError "reset")))
     = (Err (NetError "reset"), stream_of [] (Ends (NetError "reset"))).
Proof.
  assert (len [x68; x69] < 2 ^ 32) as H1 by (vm_compute; reflexivity).
  assert (5 < 4 + length [x68; x69])%nat as H2 by (simpl; lia).
  assert (errors_Is (NetError "reset") EOF = false) as H3 by reflexivity.
  split; [exact H1|]. split; [exact H2|]. split; [exact H3|].
  exact (Read_incomplete_frame_error [x68; x69] 5 (NetError "reset") H1 H2 H3).
Defined.

(** X4: two encoded messages in a row on one stream come out as two
    payloads, in order: the first [Read] returns the first payload and
    leaves exactly the second message unread, and a second [Read] on what
    is left returns the second payload. *)
Theorem Read_two_frames (a b : list byte) (e : ending) :
  len a < 2 ^ 32 -> len b < 2 ^ 32 ->
  let r := Read (stream_of (createTcpBuffer a ++ createTcpBuffer b) e) in
  r = (Ok a, stream_of (createTcpBuffer b) e)
  /\ Read (snd r) = (Ok b, stream_of [] e).
Proof.
  intros Ha Hb r.
  assert (r = (Ok a, stream_of (createTcpBuffer b) e)) as Hr.
  { subst r. unfold stream_of. rewrite Read_createTcpBuffer.
    rewrite uint32_small by (pose proof (len_nonneg a); lia).
    unfold len. rewrite Nat2Z.id. by rewrite take_ge, drop_ge by lia. }
  split; [exact Hr|]. rewrite Hr. simpl.
  unfold stream_of.
  rewrite <- (app_nil_r (createTcpBuffer b)), Read_createTcpBuffer.
  rewrite uint32_small by (pose proof (len_nonneg b); lia).
  unfold len. rewrite Nat2Z.id. by rewrite take_ge, drop_ge by lia.
Qed.

Lemma Read_two_frames_witness :
  len [x68] < 2 ^ 32 /\ len [x69; x6a] < 2 ^ 32
  /\ Read (stream_of (createTcpBuffer [x68] ++ createTcpBuffer [x69; x6a])
                     StaysOpen)
     = (Ok [x68], stream_of (createTcpBuffer [x69; x6a]) StaysOpen).
Proof.
  assert (len [x68] < 2 ^ 32) as H1 by (vm_compute; reflexivity).
  assert (len [x69; x6a] < 2 ^ 32) as H2 by (vm_compute; reflexivity).
  split; [exact H1|]. split; [exact H2|].
  exact (proj1 (Read_two_frames [x68] [x69; x6a] StaysOpen H1 H2)).
Defined.

(** X5: a message whose prefix value is below [prefixSize] stalls the
    reader of a connection that stays open: [Read] takes the bytes that
    follow as the beginning of a payload of [value + 2^32 - 4] bytes and
    waits for the rest. *)
Theorem Read_short_prefix_stalls (b0 b1 b2 b3 : byte) (rest : list byte) :
  Uint32 [b0; b1; b2; b3] < prefixSize -> len rest < 2 ^ 32 - 4 ->
  Read (stream_of (b0 :: b1 :: b2 :: b3 :: rest) StaysOpen)
  = (Blocks, stream_of [] StaysOpen).
Proof.
  intros Hp Hrest. rewrite Read_prefix_below_4 by done.
  rewrite ReadFull_short; [done|].
  pose proof (Uint32_nonneg [b0; b1; b2; b3]). lia.
Qed.

Lemma Read_short_prefix_stalls_witness :
  Uint32 [x00; x00; x00; x03] < prefixSize /\ len [x68; x69] < 2 ^ 32 - 4
  /\ Read (stream_of (x00 :: x00 :: x00 :: x03 :: [x68; x69]) StaysOpen)
     = (Blocks, stream_of [] StaysOpen).
Proof.
  assert (Uint32 [x00; x00; x00; x03] < prefixSize) as H1
    by (vm_compute; reflexivity).
  assert (len [x68; x69] < 2 ^ 32 - 4) as H2 by (vm_compute; reflexivity).
  split; [exact H1|]. split; [exact H2|].
  exact (Read_short_prefix_stalls x00 x00 x00 x03 [x68; x69] H1 H2).
Defined.

End FramingMore.


Module PoolMore.
Import Framing Pool FramingFacts PoolFacts FramingMore.

Lemma int_small z : - 2 ^ 63 <= z < 2 ^ 63 -> int z = z.
Proof. intros H. unfold int. rewrite Z.mod_small by lia. lia. Qed.

Lemma int_succ_pred z : - 2 ^ 63 <= z < 2 ^ 63 -> int (int (z + 1) - 1) = z.
Proof.
  intros H. unfold int.
  replace ((z + 1 + 2 ^ 63) mod 2 ^ 64 - 2 ^ 63 - 1 + 2 ^ 63)
    with ((z + 1 + 2 ^ 63) mod 2 ^ 64 - 1) by lia.
  rewrite Zminus_mod_idemp_l.
  replace (z + 1 + 2 ^ 63 - 1) with (z + 2 ^ 63) by lia.
  rewrite Z.mod_small by lia. lia.
Qed.

(** Running [p] and then [f] is running [f] after the run of [p]. *)
Lemma exec_bind {A B} (p : prog A) (f : A -> prog B) n w :
  exec n (p ≫= f) w = andThen n (exec n p w) f.
Proof.
  unfold mbind, prog_bind. revert B f w.
  induction p as [A a|A C o g k IH|A I R body IHb i k IH]; intros B f w.
  - done.
  - simpl. destruct (g w) as [[b w']|]; [apply IH|done].
  - simpl.
    match goal with
    | |- ?F n i w = andThen n (?G n i w) f =>
        assert (forall m i w, F m i w = andThen n (G m i w) f) as H; [|apply H]
    end.
    intros m. induction m as [|m IHm]; intros i' w'; [done|].
    destruct (exec n (body i') w') as [[i''|r] w''|o w''|w'']; simpl; auto.
Qed.

Lemma headroom_guard w :
  has_headroom w ->
  (0 <? maxOpenCount (pool w)) && (maxOpenCount (pool w) <=? numOpen (pool w))
  = false.
Proof.
  intros [H|H].
  - replace (0 <? maxOpenCount (pool w)) with false; [done|].
    symmetry. by apply Z.ltb_ge.
  - replace (maxOpenCount (pool w) <=? numOpen (pool w)) with false;
      [apply andb_false_r|]. symmetry. by apply Z.leb_gt.
Qed.

(** X6: [get] on a pool with an empty idle map and room for one more
    connection, when the dial succeeds: it returns a new connection on the
    new socket, named after the clock, has counted it in [numOpen], and has
    unlocked the mutex. *)
Theorem get_opens_new (w : world) (s : netConn) :
  mu (pool w) = false -> idleConns (pool w) = ∅ -> has_headroom w ->
  dialNext w = inr s ->
  exists w',
    run get w = Done (inl (mkTcpConn (pretty (now w)) (length (socks w)))) w'
    /\ socks w' = socks w ++ [s]
    /\ numOpen (pool w') = int (numOpen (pool w) + 1)
    /\ idleConns (pool w') = ∅
    /\ requestChan (pool w') = requestChan (pool w)
    /\ mu (pool w') = false.
Proof.
  intros Hmu Hidle Hroom Hdial. unfold run, get. cbn. rewrite Hmu. cbn.
  unfold numIdleConns. cbn. rewrite Hidle, map_size_empty.
  change (0 <? Z.of_nat 0) with false. cbn.
  rewrite headroom_guard by done. cbn. rewrite Hdial. cbn.
  eexists. split; [reflexivity|]. cbn. by rewrite Hidle.
Qed.

Lemma get_opens_new_witness :
  let w := start testConfig 1000 (inr (stream_of [] StaysOpen)) in
  mu (pool w) = false /\ idleConns (pool w) = ∅ /\ has_headroom w
  /\ exists w', run get w = Done (inl (mkTcpConn "1000" 0)) w'
                /\ socks w' = [stream_of [] StaysOpen]
                /\ numOpen (pool w') = 1.
Proof.
  intros w.
  assert (mu (pool w) = false) as H1 by reflexivity.
  assert (idleConns (pool w) = ∅) as H2 by reflexivity.
  assert (has_headroom w) as H3 by (right; vm_compute; reflexivity).
  split; [exact H1|]. split; [exact H2|]. split; [exact H3|].
  destruct (get_opens_new w (stream_of [] StaysOpen) H1 H2 H3 eq_refl)
    as (w' & Hrun & Hs & Hn & _).
  exists w'. split; [exact Hrun|]. split; [exact Hs|]. exact Hn.
Defined.

(** X7: the same call when the dial fails: [get] returns the error of
    the dial, and [numOpen] is back at its value; no socket was added and
    the mutex is unlocked. *)
Theorem get_dial_fails (w : world) (err : error) :
  mu (pool w) = false -> idleConns (pool w) = ∅ -> has_headroom w ->
  dialNext w = inl err ->
  - 2 ^ 63 <= numOpen (pool w) < 2 ^ 63 ->
  exists w',
    run get w = Done (inr err) w'
    /\ socks w' = socks w
    /\ numOpen (pool w') = numOpen (pool w)
    /\ idleConns (pool w') = ∅
    /\ mu (pool w') = false.
Proof.
  intros Hmu Hidle Hroom Hdial Hint. unfold run, get. cbn. rewrite Hmu. cbn.
  unfold numIdleConns. cbn. rewrite Hidle, map_size_empty.
  change (0 <? Z.of_nat 0) with false. cbn.
  rewrite headroom_guard by done. cbn. rewrite Hdial. cbn.
  eexists. split; [reflexivity|]. cbn. rewrite Hidle.
  by rewrite int_succ_pred.
Qed.

Lemma get_dial_fails_witness :
  mu (pool w7) = false /\ idleConns (pool w7) = ∅ /\ has_headroom w7
  /\ - 2 ^ 63 <= numOpen (pool w7) < 2 ^ 63
  /\ exists w', run get w7 = Done (inr (NetError "refused")) w'
                /\ numOpen (pool w') = numOpen (pool w7).
Proof.
  assert (mu (pool w7) = false) as H1 by reflexivity.
  assert (idleConns (pool w7) = ∅) as H2 by reflexivity.
  assert (has_headroom w7) as H3 by (right; vm_compute; reflexivity).
  assert (- 2 ^ 63 <= numOpen (pool w7) < 2 ^ 63) as H4
    by (vm_compute; split; [discriminate|reflexivity]).
  split; [exact H1|]. split; [exact H2|]. split; [exact H3|]. split; [exact H4|].
  destruct (get_dial_fails w7 (NetError "refused") H1 H2 H3 eq_refl H4)
    as (w' & Hrun & _ & Hn & _).
  exists w'. by split.
Defined.

(** Case 1 of [get]: the world after it has handed out the idle
    connection [c]. *)
Lemma run_get_reuse w c :
  mu (pool w) = false -> idleConns (pool w) <> ∅ ->
  rangeNext w (idleConns (pool w)) = Some c ->
  run get w
  = Done (inl c)
         (with_pool (set_mu false)
            (with_pool (fun p => set_idleConns (delete (id c) (idleConns p)) p)
               (with_pool (set_mu true) w))).
Proof.
  intros Hmu Hne Hr. unfold run, get. cbn. rewrite Hmu. cbn.
  assert ((0 <? numIdleConns (with_pool (set_mu true) w)) = true) as ->.
  { apply Z.ltb_lt. unfold numIdleConns. cbn.
    assert (size (idleConns (pool w)) <> 0%nat); [|lia].
    intros Hs. by apply map_size_empty_iff in Hs. }
  cbn. rewrite Hr. done.
Qed.

Lemma release_rangeNext c w :
  rangeNext (after (run (release c) w)) = rangeNext w.
Proof.
  unfold run, release. cbn. destruct (mu (pool w)); cbn; [done|].
  by destruct (_ && _).
Qed.

(** X8: [get] on a pool whose idle map is not empty returns one of the
    idle connections, whatever the limits are, without dialling: the
    connection the map iteration yields; it deletes the key [c.id] from
    the idle map, leaves [numOpen] alone and unlocks the mutex. *)
Theorem get_reuses_idle (w : world) :
  mu (pool w) = false -> idleConns (pool w) <> ∅ -> range_ok (rangeNext w) ->
  exists c k w',
    idleConns (pool w) !! k = Some c
    /\ run get w = Done (inl c) w'
    /\ idleConns (pool w') = delete (id c) (idleConns (pool w))
    /\ numOpen (pool w') = numOpen (pool w)
    /\ socks w' = socks w
    /\ mu (pool w') = false.
Proof.
  intros Hmu Hne Hrange. specialize (Hrange (idleConns (pool w))).
  destruct (rangeNext w (idleConns (pool w))) as [c|] eqn:Hr; [|done].
  destruct Hrange as [k Hk]. exists c, k.
  rewrite (run_get_reuse w c) by done.
  eexists. split; [done|]. split; [reflexivity|]. done.
Qed.

Lemma get_reuses_idle_witness :
  let w := mkWorld (mkPool "127.0.0.1" 11011 false {[ "7" := c7 ]} 1 1 1 [])
                   [stream_of [] StaysOpen] [] 1000
                   (inl (NetError "refused")) rangeFirst in
  mu (pool w) = false /\ idleConns (pool w) <> ∅ /\ range_ok (rangeNext w)
  /\ exists c k w', idleConns (pool w) !! k = Some c
                    /\ run get w = Done (inl c) w'
                    /\ numOpen (pool w') = numOpen (pool w).
Proof.
  intros w.
  assert (mu (pool w) = false) as H1 by reflexivity.
  assert (idleConns (pool w) <> ∅) as H2 by apply map_non_empty_singleton.
  assert (range_ok (rangeNext w)) as H3 by exact range_ok_rangeFirst.
  split; [exact H1|]. split; [exact H2|]. split; [exact H3|].
  destruct (get_reuses_idle w H1 H2 H3) as (c & k & w' & Hk & Hrun & _ & Hn & _).
  exists c, k, w'. by repeat split.
Defined.


Lemma run_get_count w :
  0 < maxOpenCount (pool w) < 2 ^ 63 ->
  - 2 ^ 63 <= numOpen (pool w) <= maxOpenCount (pool w) ->
  maxOpenCount (pool (after (run get w))) = maxOpenCount (pool w)
  /\ ((exists c w', run get w = Done (inl c) w'
         /\ rangeNext w (idleConns (pool w)) = Some c
         /\ idleConns (pool w') = delete (id c) (idleConns (pool w))
         /\ numOpen (pool w') = numOpen (pool w))
      \/ (exists c w', run get w = Done (inl c) w'
            /\ idleConns (pool w') = idleConns (pool w)
            /\ numOpen (pool w') = numOpen (pool w) + 1
            /\ numOpen (pool w) < maxOpenCount (pool w))
      \/ ((forall c w', run get w <> Done (inl c) w')
          /\ idleConns (pool (after (run get w))) = idleConns (pool w)
          /\ numOpen (pool (after (run get w))) = numOpen (pool w))).
Proof.
  intros Hmax Hn. unfold run, get. cbn.
  destruct (mu (pool w)) eqn:Hmu; cbn.
  { split; [done|]. right. right. done. }
  destruct (0 <? numIdleConns (with_pool (set_mu true) w)); cbn;
    [destruct (rangeNext w (idleConns (pool w))) as [c|] eqn:Hr; cbn;
     [split; [done|]; left; eexists _, _; split; [reflexivity|done]|]|];
    (destruct (Z.ltb_spec 0 (maxOpenCount (pool w))); [|lia]);
    (destruct (Z.leb_spec (maxOpenCount (pool w)) (numOpen (pool w))); cbn;
     [destruct (len (requestChan (pool w)) <? maxQueueLength); cbn;
      [rewrite list_lookup_middle by done; cbn|];
      (split; [done|right; right; done])
     |destruct (dialNext w); cbn; (split; [done|]); right;
      [right; split; [done|]; split; [done|]; apply int_succ_pred; lia
      |left; eexists _, _; split; [reflexivity|]; cbn;
       split; [done|]; split; [|done]; apply int_small; lia]]).
Qed.

(** X9: the open counter covers the connections: in every state that
    sequences of [get] and [release] lead to in a pool with a limit
    [0 < maxOpenCount < 2^63], the idle connections and the connections
    held by callers are together at most [numOpen], which is at most
    [maxOpenCount]. *)
Theorem open_count_bounded (w : world) (inUse : list tcpConn) :
  reachable w inUse ->
  0 < maxOpenCount (pool w) < 2 ^ 63 ->
  numIdleConns w + len inUse <= numOpen (pool w) <= maxOpenCount (pool w).
Proof.
  intros Hreach. unfold numIdleConns, len.
  induction Hreach as [cfg t dial|w u t ss dial range _ IH|w u Hre IH Hr Hf
                      |w held c held' Hre IH]; intros Hmax.
  - simpl in *. rewrite map_size_empty. lia.
  - by apply IH.
  - pose proof (reachable_owner_inv _ _ Hre) as (Hkeys & _ & _).
    destruct (mu (pool w)) eqn:Hmu.
    { revert Hmax. unfold run, get. cbn. rewrite Hmu. cbn. intros Hmax.
      by apply IH. }
    assert (maxOpenCount (pool (after (run get w))) = maxOpenCount (pool w))
      as Hsame.
    { unfold run, get. cbn. rewrite Hmu. cbn.
      destruct (0 <? numIdleConns _); cbn;
        [destruct (rangeNext w _); cbn; [done|]|];
        (destruct (_ && _); cbn;
         [destruct (_ <? maxQueueLength); cbn; [|done];
          by rewrite list_lookup_middle
         |by destruct (dialNext w)]). }
    rewrite Hsame in Hmax |- *.
    specialize (IH Hmax).
    destruct (run_get_count w Hmax) as [_ Hcase]; [lia|].
    destruct Hcase as [(c & w' & -> & Hpick & Hidle & Hnum)
                      |[(c & w' & -> & Hidle & Hnum & Hlt)
                       |(Hno & Hidle & Hnum)]]; simpl.
    + rewrite Hidle, Hnum. specialize (Hr (idleConns (pool w))).
      rewrite Hpick in Hr. destruct Hr as [k Hk].
      pose proof (Hkeys _ _ Hk) as <-.
      pose proof (map_size_delete (id c) (idleConns (pool w))) as Hsz.
      rewrite Hk in Hsz. simpl in Hsz.
      assert (size (idleConns (pool w)) <> 0%nat).
      { intros Hs. apply map_size_empty_iff in Hs. by rewrite Hs in Hk. }
      lia.
    + rewrite Hidle, Hnum. lia.
    + rewrite Hidle, Hnum.
      destruct (run get w) as [[c|e] w'| |]; simpl; try lia.
      by destruct (Hno c w').
  - destruct (mu (pool w)) eqn:Hmu.
    { revert Hmax. rewrite run_release_locked by done. simpl. intros Hmax.
      specialize (IH Hmax).
      rewrite length_app in *. simpl in IH. lia. }
    assert (maxOpenCount (pool (after (run (release c) w)))
            = maxOpenCount (pool w)) as Hsame.
    { unfold run, release. cbn. rewrite Hmu. cbn. by destruct (_ && _). }
    rewrite Hsame in Hmax |- *.
    specialize (IH Hmax).
    rewrite length_app in *. simpl in IH.
    destruct (run_release c w Hmu) as (_ & _ & _ & Hcase).
    destruct (numIdleConns w <? maxIdleCount (pool w));
      destruct Hcase as (Hidle & _ & Hnum); rewrite Hidle, Hnum.
    + pose proof (size_insert_le (idleConns (pool w)) (id c) c). lia.
    + rewrite int_small by lia. lia.
Qed.

Lemma open_count_bounded_witness :
  reachable w_held [c_held]
  /\ 0 < maxOpenCount (pool w_held) < 2 ^ 63
  /\ numIdleConns w_held + len [c_held] <= numOpen (pool w_held)
     <= maxOpenCount (pool w_held).
Proof.
  assert (reachable w_held [c_held]) as H.
  { pose proof (reach_get (start testConfig 1000 (inr (stream_of [] StaysOpen))) []
                  (reach_start _ _ _) range_ok_rangeFirst) as Hg.
    apply Hg. split; [reflexivity|].
    intros c Hc. by apply elem_of_nil in Hc. }
  assert (0 < maxOpenCount (pool w_held) < 2 ^ 63) as Hm by (vm_compute; done).
  split; [exact H|]. split; [exact Hm|].
  exact (open_count_bounded w_held [c_held] H Hm).
Defined.


(** *** [SendData] *)

(** Projections of updated worlds, without touching the values stored. *)
Ltac world_norm :=
  cbv beta iota delta
    [pool socks requests now dialNext rangeNext host port mu idleConns numOpen
     maxOpenCount maxIdleCount requestChan with_socks with_pool with_requests
     set_mu set_numOpen set_idleConns set_requestChan].

(** The world after Case 3 of [get] has opened the socket [s]. *)
Lemma run_get_new w s :
  mu (pool w) = false -> idleConns (pool w) = ∅ -> has_headroom w ->
  dialNext w = inr s ->
  run get w
  = Done (inl (mkTcpConn (pretty (now w)) (length (socks w))))
         (with_socks (fun l => l ++ [s])
            (with_pool (set_mu false)
               (with_pool (fun p => set_numOpen (int (numOpen p + 1)) p)
                  (with_pool (set_mu true) w)))).
Proof.
  intros Hmu Hidle Hroom Hdial. unfold run, get. cbn. rewrite Hmu. cbn.
  unfold numIdleConns. cbn. rewrite Hidle, map_size_empty.
  change (0 <? Z.of_nat 0) with false. cbn.
  rewrite headroom_guard by done. cbn. by rewrite Hdial.
Qed.

(** What [sendOn] does on a connection whose socket is [s]. *)
Lemma run_sendOn c data w s :
  socks w !! conn c = Some s ->
  run (sendOn c data) w
  = match Write s data with
    | (Err err, s1) =>
        Done (inr err)
             (after (run (terminate c) (with_socks (<[conn c := s1]>) w)))
    | (Blocks, _) => Stuck (SockIO (conn c)) w
    | (Ok _, s1) =>
        let w1 := with_socks (<[conn c := s1]>) w in
        match Read s1 with
        | (Err err, s2) =>
            Done (inr err)
                 (after (run (terminate c) (with_socks (<[conn c := s2]>) w1)))
        | (Blocks, _) => Stuck (SockIO (conn c)) w1
        | (Ok resBuf, s2) =>
            andThen 0 (run (release c) (with_socks (<[conn c := s2]>) w1))
                    (fun _ => Ret (inl resBuf))
        end
    end.
Proof.
  intros Hs. unfold run, sendOn. rewrite exec_bind.
  unfold sockIO at 1. simpl exec at 1. rewrite Hs.
  destruct (Write s data) as [[n|err|] s1]; cbn -[mbind release terminate Read];
    [|by rewrite exec_bind|done].
  rewrite exec_bind. unfold sockIO. simpl exec at 1.
  change (socks (with_socks _ w)) with (<[conn c := s1]> (socks w)).
  rewrite list_lookup_insert_eq by (by eapply lookup_lt_Some).
  destruct (Read s1) as [[resBuf|err|] s2]; cbn -[mbind release terminate];
    [|by rewrite exec_bind|done].
  by rewrite exec_bind.
Qed.


Lemma run_SendData_new w s data :
  mu (pool w) = false -> idleConns (pool w) = ∅ -> has_headroom w ->
  dialNext w = inr s ->
  let c := mkTcpConn (pretty (now w)) (length (socks w)) in
  run (SendData data) w
  = match Write s data with
    | (Err err, s1) =>
        Done (inr err)
          (after (run (terminate c)
             (with_socks (fun _ => socks w ++ [s1])
                (with_pool (fun p => set_numOpen (int (numOpen p + 1)) p) w))))
    | (Blocks, _) =>
        Stuck (SockIO (conn c))
          (with_socks (fun _ => socks w ++ [s])
             (with_pool (fun p => set_numOpen (int (numOpen p + 1)) p) w))
    | (Ok _, s1) =>
        match Read s1 with
        | (Err err, s2) =>
            Done (inr err)
              (after (run (terminate c)
                 (with_socks (fun _ => socks w ++ [s2])
                    (with_pool (fun p => set_numOpen (int (numOpen p + 1)) p) w))))
        | (Blocks, _) =>
            Stuck (SockIO (conn c))
              (with_socks (fun _ => socks w ++ [s1])
                 (with_pool (fun p => set_numOpen (int (numOpen p + 1)) p) w))
        | (Ok resBuf, s2) =>
            Done (inl resBuf)
              (after (run (release c)
                 (with_socks (fun _ => socks w ++ [s2])
                    (with_pool (fun p => set_numOpen (int (numOpen p + 1)) p) w))))
        end
    end.
Proof.
  intros Hmu Hidle Hroom Hdial c. unfold run, SendData. rewrite exec_bind.
  fold (run get w). rewrite (run_get_new w s) by done.
  unfold andThen. cbv beta iota. fold c.
  etransitivity; [apply (run_sendOn c data _ s); by apply list_lookup_middle|].
  assert (forall x y, <[length (socks w) := x]> (socks w ++ [y]) = socks w ++ [x])
    as Hins.
  { intros x y. rewrite insert_app_r_alt by lia. by rewrite Nat.sub_diag. }
  subst c. clear Hdial. generalize (pretty (now w)). intros ident.
  destruct (Write s data) as [[k|err|] s1];
    [destruct (Read s1) as [[resBuf|err|] s2]| |];
    destruct w as [[h p m i n mo mi q] ss rq t d r]; simpl in *; subst m;
    unfold run, release, terminate, andThen; cbn;
    [destruct ((0 <? mi) && (Z.of_nat (size i) <? mi)); cbn|..];
    world_norm; rewrite ?Hins; reflexivity.
Qed.

Lemma Write_stream bs e data :
  Write (stream_of bs e) data
  = (Ok (len (createTcpBuffer data)), mkConn bs e (createTcpBuffer data) None false).
Proof. reflexivity. Qed.

(** X10: one whole exchange through [SendData] on a pool with an empty
    idle map and room for a connection, against a server that answers with
    one encoded message: [SendData] returns the payload of the answer; the
    socket it dialled has received exactly the encoded request; the mutex is
    unlocked; and the connection is in the idle map under its identifier
    when idle connections are kept ([maxIdleCount > 0]), else its socket is
    closed and [numOpen] is decremented again. *)
Theorem SendData_exchange (w : world) (data resp : list byte) (e : ending) :
  mu (pool w) = false -> idleConns (pool w) = ∅ -> has_headroom w ->
  dialNext w = inr (stream_of (createTcpBuffer resp) e) ->
  len resp < 2 ^ 32 ->
  let c := mkTcpConn (pretty (now w)) (length (socks w)) in
  exists w',
    run (SendData data) w = Done (inl resp) w'
    /\ mu (pool w') = false
    /\ if 0 <? maxIdleCount (pool w)
       then idleConns (pool w') = {[ id c := c ]}
            /\ socks w' = socks w ++ [mkConn [] e (createTcpBuffer data) None false]
            /\ numOpen (pool w') = int (numOpen (pool w) + 1)
       else idleConns (pool w') = ∅
            /\ socks w' = socks w ++ [mkConn [] e (createTcpBuffer data) None true]
            /\ numOpen (pool w') = int (int (numOpen (pool w) + 1) - 1).
Proof.
  intros Hmu Hidle Hroom Hdial Hfit c.
  rewrite (run_SendData_new w _ data Hmu Hidle Hroom Hdial).
  rewrite Write_stream.
  rewrite <- (app_nil_r (createTcpBuffer resp)), Read_createTcpBuffer.
  rewrite uint32_small by (pose proof (len_nonneg resp); lia).
  unfold len at 1 2. rewrite Nat2Z.id, take_ge, drop_ge by lia. simpl app.
  eexists. split; [reflexivity|]. fold c.
  match goal with |- context [run (release c) ?w0] => set (w1 := w0) end.
  destruct (run_release c w1) as (_ & Hmu' & _ & Hcase); [done|].
  split; [exact Hmu'|].
  assert (idleConns (pool w1) = ∅) as Hi1 by exact Hidle.
  unfold numIdleConns in Hcase. rewrite Hi1, map_size_empty in Hcase.
  change (Z.of_nat 0) with 0 in Hcase.
  change (maxIdleCount (pool w1)) with (maxIdleCount (pool w)) in Hcase.
  change (numOpen (pool w1)) with (int (numOpen (pool w) + 1)) in Hcase.
  change (socks w1)
    with (socks w ++ [mkConn [] e (createTcpBuffer data) None false]) in Hcase.
  destruct (0 <? maxIdleCount (pool w)); destruct Hcase as (-> & -> & ->).
  - by rewrite insert_empty.
  - split; [done|]. split; [|done]. change (conn c) with (length (socks w)).
    rewrite alter_app_r_alt by lia. by rewrite Nat.sub_diag.
Qed.

Lemma SendData_exchange_witness :
  let w := start testConfig 1000 (inr (stream_of (createTcpBuffer [x6f; x6b]) StaysOpen)) in
  mu (pool w) = false /\ idleConns (pool w) = ∅ /\ has_headroom w
  /\ len [x6f; x6b] < 2 ^ 32
  /\ exists w', run (SendData [x68; x69]) w = Done (inl [x6f; x6b]) w'
                /\ mu (pool w') = false
                /\ idleConns (pool w') = {[ "1000" := mkTcpConn "1000" 0 ]}.
Proof.
  intros w.
  assert (mu (pool w) = false) as H1 by reflexivity.
  assert (idleConns (pool w) = ∅) as H2 by reflexivity.
  assert (has_headroom w) as H3 by (right; vm_compute; reflexivity).
  assert (len [x6f; x6b] < 2 ^ 32) as H4 by (vm_compute; reflexivity).
  split; [exact H1|]. split; [exact H2|]. split; [exact H3|]. split; [exact H4|].
  destruct (SendData_exchange w [x68; x69] [x6f; x6b] StaysOpen H1 H2 H3 eq_refl H4)
    as (w' & Hrun & Hmu & Hidle & _).
  exists w'. by repeat split.
Defined.


(** What [Read] returns does not depend on what was written. *)
Lemma Read_fst_outgoing c o :
  fst (Read (mkConn (incoming c) (atEnd c) o (writeFault c) (closed c)))
  = fst (Read c).
Proof.
  unfold Read, ReadFull, consume. simpl.
  destruct (prefixSize <=? len (incoming c)); simpl.
  - destruct (_ <=? _); simpl; [done|].
    destruct (atEnd c) as [e|]; [|done].
    destruct (_ && _); simpl; [done|]. by destruct (errors_Is e EOF).
  - destruct (atEnd c) as [e|]; [|done].
    destruct (_ && _); simpl; [done|]. by destruct (errors_Is e EOF).
Qed.

(** X11: while the answer of the server is incomplete and the connection
    stays open, [SendData] waits in [Read] on the socket it dialled, with
    the request sent, the connection counted in [numOpen] and not in the
    idle map, and the mutex unlocked. *)
Theorem SendData_awaits_answer (w : world) (data resp : list byte) (k : nat) :
  mu (pool w) = false -> idleConns (pool w) = ∅ -> has_headroom w ->
  dialNext w = inr (stream_of (take k (createTcpBuffer resp)) StaysOpen) ->
  len resp < 2 ^ 32 -> (k < 4 + length resp)%nat ->
  exists w',
    run (SendData data) w = Stuck (SockIO (length (socks w))) w'
    /\ mu (pool w') = false
    /\ idleConns (pool w') = ∅
    /\ numOpen (pool w') = int (numOpen (pool w) + 1)
    /\ exists s, socks w' = socks w ++ [s]
                 /\ outgoing s = createTcpBuffer data /\ closed s = false.
Proof.
  intros Hmu Hidle Hroom Hdial Hfit Hk.
  rewrite (run_SendData_new w _ data Hmu Hidle Hroom Hdial).
  rewrite Write_stream.
  pose proof (Read_fst_outgoing (stream_of (take k (createTcpBuffer resp)) StaysOpen)
                (createTcpBuffer data)) as Hread.
  rewrite Read_incomplete in Hread by done. simpl in Hread.
  destruct (Read (mkConn _ _ (createTcpBuffer data) _ _)) as [[r|err|] s2];
    try done.
  eexists. split; [reflexivity|]. simpl. rewrite Hmu, Hidle.
  repeat split; eauto.
Qed.

Lemma SendData_awaits_answer_witness :
  let w := start testConfig 1000
             (inr (stream_of (take 5 (createTcpBuffer [x6f; x6b])) StaysOpen)) in
  mu (pool w) = false /\ idleConns (pool w) = ∅ /\ has_headroom w
  /\ len [x6f; x6b] < 2 ^ 32 /\ (5 < 4 + length [x6f; x6b])%nat
  /\ exists w', run (SendData [x68; x69]) w = Stuck (SockIO 0) w'
                /\ mu (pool w') = false.
Proof.
  intros w.
  assert (mu (pool w) = false) as H1 by reflexivity.
  assert (idleConns (pool w) = ∅) as H2 by reflexivity.
  assert (has_headroom w) as H3 by (right; vm_compute; reflexivity).
  assert (len [x6f; x6b] < 2 ^ 32) as H4 by (vm_compute; reflexivity).
  assert (5 < 4 + length [x6f; x6b])%nat as H5 by (simpl; lia).
  split; [exact H1|]. split; [exact H2|]. split; [exact H3|]. split; [exact H4|].
  split; [exact H5|].
  destruct (SendData_awaits_answer w [x68; x69] [x6f; x6b] 5 H1 H2 H3 eq_refl H4 H5)
    as (w' & Hrun & Hmu & _).
  exists w'. by split.
Defined.


(** X12: when the write or the read on the connection that [SendData]
    has dialled fails, [SendData] returns the error of the write
    ([ErrConnectionClosed] for one that is or wraps [io.EOF]) or of the
    read; it has closed the socket and unlocked the mutex, the connection is
    not in the idle map, and [numOpen] still counts it. *)
Theorem SendData_failed_exchange (w : world) (data : list byte) (s : netConn)
    (err : error) :
  mu (pool w) = false -> idleConns (pool w) = ∅ -> has_headroom w ->
  dialNext w = inr s ->
  match writeFault s with
  | Some e0 => err = (if errors_Is e0 EOF then ErrConnectionClosed else e0)
  | None => fst (Read s) = Err err
  end ->
  exists w' s',
    run (SendData data) w = Done (inr err) w'
    /\ socks w' = socks w ++ [s'] /\ closed s' = true
    /\ idleConns (pool w') = ∅
    /\ numOpen (pool w') = int (numOpen (pool w) + 1)
    /\ mu (pool w') = false.
Proof.
  intros Hmu Hidle Hroom Hdial Hfail.
  rewrite (run_SendData_new w _ data Hmu Hidle Hroom Hdial).
  assert (forall x, alter Close (length (socks w)) (socks w ++ [x])
                    = socks w ++ [Close x]) as Halt.
  { intros x. rewrite alter_app_r_alt by lia. by rewrite Nat.sub_diag. }
  unfold Write, connWrite. destruct (writeFault s) as [e0|] eqn:Hwf.
  - subst err. exists (after (run (terminate (mkTcpConn (pretty (now w)) (length (socks w))))
       (with_socks (fun _ => socks w ++ [s])
          (with_pool (fun p => set_numOpen (int (numOpen p + 1)) p) w)))),
      (Close s).
    split; [by destruct (errors_Is e0 EOF)|].
    simpl. rewrite Halt, Hidle, Hmu, delete_empty. done.
  - pose proof (Read_fst_outgoing s (outgoing s ++ createTcpBuffer data)) as Hr.
    rewrite Hwf in Hr. rewrite Hfail in Hr.
    destruct (Read (mkConn _ _ (outgoing s ++ createTcpBuffer data) _ _))
      as [[r|err'|] s2]; simpl in Hr; try done.
    injection Hr as ->.
    eexists _, (Close s2). split; [reflexivity|].
    simpl. rewrite Halt, Hidle, Hmu, delete_empty. done.
Qed.

Lemma SendData_failed_exchange_witness :
  let w := start testConfig 1000 (inr (stream_of [] (Ends EOF))) in
  mu (pool w) = false /\ idleConns (pool w) = ∅ /\ has_headroom w
  /\ exists w' s',
       run (SendData [x68; x69]) w = Done (inr ErrConnectionClosed) w'
       /\ socks w' = socks w ++ [s'] /\ closed s' = true.
Proof.
  intros w.
  assert (mu (pool w) = false) as H1 by reflexivity.
  assert (idleConns (pool w) = ∅) as H2 by reflexivity.
  assert (has_headroom w) as H3 by (right; vm_compute; reflexivity).
  split; [exact H1|]. split; [exact H2|]. split; [exact H3|].
  destruct (SendData_failed_exchange w [x68; x69] (stream_of [] (Ends EOF))
              ErrConnectionClosed H1 H2 H3 eq_refl eq_refl)
    as (w' & s' & Hrun & Hs & Hc & _).
  exists w', s'. by repeat split.
Defined.

(** X13: a connection released into an empty idle map is the connection
    that the next [get] returns: [get] dials nothing, the socket is not
    closed, [numOpen] is as before the [release], and the idle map is empty
    again. *)
Theorem release_then_get (w : world) (c : tcpConn) :
  mu (pool w) = false -> idleConns (pool w) = ∅ ->
  0 < maxIdleCount (pool w) -> range_ok (rangeNext w) ->
  exists w1 w2,
    run (release c) w = Done tt w1
    /\ run get w1 = Done (inl c) w2
    /\ idleConns (pool w2) = ∅
    /\ socks w2 = socks w
    /\ numOpen (pool w2) = numOpen (pool w)
    /\ mu (pool w2) = false.
Proof.
  intros Hmu Hidle Hmax Hrange.
  destruct (run_release c w Hmu) as (Hrun & Hmu1 & _ & Hcase).
  pose proof (release_rangeNext c w) as Hrg.
  unfold numIdleConns in Hcase. rewrite Hidle, map_size_empty in Hcase.
  change (Z.of_nat 0) with 0 in Hcase.
  replace (0 <? maxIdleCount (pool w)) with true in Hcase
    by (symmetry; by apply Z.ltb_lt).
  destruct Hcase as (Hi1 & Hs1 & Hn1). rewrite insert_empty in Hi1.
  set (w1 := after (run (release c) w)) in *.
  specialize (Hrange {[id c := c]}). rewrite <- Hrg, <- Hi1 in Hrange.
  destruct (rangeNext w1 (idleConns (pool w1))) as [c'|] eqn:Hr.
  - destruct Hrange as [k Hk]. rewrite Hi1 in Hk.
    apply lookup_singleton_Some in Hk as [<- <-].
    exists w1. eexists. split; [exact Hrun|].
    rewrite (run_get_reuse w1 c); [|done| |done].
    + split; [reflexivity|]. simpl. rewrite Hi1, delete_singleton_eq. done.
    + rewrite Hi1. apply map_non_empty_singleton.
  - rewrite Hi1 in Hrange. by apply map_non_empty_singleton in Hrange.
Qed.

Lemma release_then_get_witness :
  mu (pool w7) = false /\ idleConns (pool w7) = ∅
  /\ 0 < maxIdleCount (pool w7) /\ range_ok (rangeNext w7)
  /\ exists w1 w2, run (release c7) w7 = Done tt w1
                   /\ run get w1 = Done (inl c7) w2.
Proof.
  assert (mu (pool w7) = false) as H1 by reflexivity.
  assert (idleConns (pool w7) = ∅) as H2 by reflexivity.
  assert (0 < maxIdleCount (pool w7)) as H3 by (vm_compute; reflexivity).
  assert (range_ok (rangeNext w7)) as H4 by exact range_ok_rangeFirst.
  split; [exact H1|]. split; [exact H2|]. split; [exact H3|]. split; [exact H4|].
  destruct (release_then_get w7 c7 H1 H2 H3 H4) as (w1 & w2 & Hr & Hg & _).
  exists w1, w2. by split.
Defined.

(** X14: a pool without a limit ([maxOpenCount <= 0]) never makes a
    caller wait: with the mutex free, [get] returns, a connection or the
    error of the dial, with the mutex unlocked and without queueing a
    request. *)
Theorem get_unlimited_returns (w : world) :
  mu (pool w) = false -> maxOpenCount (pool w) <= 0 ->
  exists r w',
    run get w = Done r w'
    /\ mu (pool w') = false
    /\ requestChan (pool w') = requestChan (pool w)
    /\ requests w' = requests w.
Proof.
  intros Hmu Hmax. unfold run, get. cbn. rewrite Hmu. cbn.
  pose proof (headroom_guard w (or_introl Hmax)) as Hg.
  destruct (0 <? numIdleConns _); cbn;
    [destruct (rangeNext w (idleConns (pool w))); cbn;
     [eexists _, _; split; [reflexivity|done]|]|];
    rewrite Hg; cbn;
    destruct (dialNext w); cbn; eexists _, _; (split; [reflexivity|done]).
Qed.

Lemma get_unlimited_returns_witness :
  let w := start (mkConfig "127.0.0.1" 11011 1 0) 1000 (inl (NetError "refused")) in
  mu (pool w) = false /\ maxOpenCount (pool w) <= 0
  /\ exists r w', run get w = Done r w' /\ mu (pool w') = false.
Proof.
  intros w.
  assert (mu (pool w) = false) as H1 by reflexivity.
  assert (maxOpenCount (pool w) <= 0) as H2 by (vm_compute; discriminate).
  split; [exact H1|]. split; [exact H2|].
  destruct (get_unlimited_returns w H1 H2) as (r & w' & Hrun & Hmu & _).
  exists r, w'. by split.
Defined.

(** X15: a pool at its limit with nothing idle is blocked by the first
    caller that asks: [get] stops in Case 2, at the [select] on its request
    or, when the queue is full, at the send to the queue, with the mutex
    locked; from then on every [get] and every [release] waits for the
    mutex. *)
Theorem get_at_limit_blocks_pool (w : world) :
  mu (pool w) = false -> idleConns (pool w) = ∅ ->
  0 < maxOpenCount (pool w) <= numOpen (pool w) ->
  exists o w',
    run get w = Stuck o w'
    /\ (o = if len (requestChan (pool w)) <? maxQueueLength
            then Select (length (requests w)) else ChanSend)
    /\ mu (pool w') = true
    /\ run get w' = Stuck MuLock w'
    /\ forall c, run (release c) w' = Stuck MuLock w'.
Proof.
  intros Hmu Hidle [Hpos Hcap]. unfold run at 1, get at 1. cbn. rewrite Hmu. cbn.
  unfold numIdleConns. cbn. rewrite Hidle, map_size_empty.
  change (0 <? Z.of_nat 0) with false. cbn.
  replace (0 <? maxOpenCount (pool w)) with true by (symmetry; by apply Z.ltb_lt).
  replace (maxOpenCount (pool w) <=? numOpen (pool w)) with true
    by (symmetry; by apply Z.leb_le).
  cbn. destruct (len (requestChan (pool w)) <? maxQueueLength); cbn.
  - rewrite list_lookup_middle by done. cbn.
    eexists _, _. split; [reflexivity|]. split; [done|]. split; [done|].
    split; [done|]. intros c. by apply run_release_locked.
  - eexists _, _. split; [reflexivity|]. split; [done|]. split; [done|].
    split; [done|]. intros c. by apply run_release_locked.
Qed.

Lemma get_at_limit_blocks_pool_witness :
  mu (pool w_held) = false /\ idleConns (pool w_held) = ∅
  /\ 0 < maxOpenCount (pool w_held) <= numOpen (pool w_held)
  /\ exists o w', run get w_held = Stuck o w' /\ mu (pool w') = true.
Proof.
  assert (mu (pool w_held) = false) as H1 by reflexivity.
  assert (idleConns (pool w_held) = ∅) as H2 by reflexivity.
  assert (0 < maxOpenCount (pool w_held) <= numOpen (pool w_held)) as H3
    by (vm_compute; split; [reflexivity|discriminate]).
  split; [exact H1|]. split; [exact H2|]. split; [exact H3|].
  destruct (get_at_limit_blocks_pool w_held H1 H2 H3) as (o & w' & Hrun & _ & Hmu & _).
  exists o, w'. by split.
Defined.


(** X16: the first caller of a fresh pool is never queued: whatever the
    configuration, [get] on the pool that [CreateTcpConnPool] builds dials,
    and when the dial succeeds returns the connection on the first socket,
    with [numOpen] at 1 and the mutex unlocked. *)
Theorem first_get_dials (cfg : TcpConfig) (t : Z) (s : netConn) :
  exists w',
    run get (start cfg t (inr s)) = Done (inl (mkTcpConn (pretty t) 0)) w'
    /\ socks w' = [s]
    /\ numOpen (pool w') = 1
    /\ idleConns (pool w') = ∅
    /\ requestChan (pool w') = []
    /\ mu (pool w') = false.
Proof.
  assert (has_headroom (start cfg t (inr s))) as Hroom.
  { unfold has_headroom. simpl. lia. }
  rewrite (run_get_new (start cfg t (inr s)) s eq_refl eq_refl Hroom eq_refl).
  eexists. split; [reflexivity|]. done.
Qed.

Lemma Write_ok i e o cl data :
  Write (mkConn i e o None cl) data
  = (Ok (len (createTcpBuffer data)), mkConn i e (o ++ createTcpBuffer data) None cl).
Proof. reflexivity. Qed.

(** X17: [SendData] on a pool with one idle connection uses it: it dials
    nothing, sends the encoded request on the socket of that connection,
    returns the payload of the answer, and puts the connection back into
    the idle map; [numOpen] is unchanged and the mutex unlocked. *)
Theorem SendData_reuses_idle (w : world) (c : tcpConn) (data resp o : list byte)
    (e : ending) :
  mu (pool w) = false -> idleConns (pool w) = {[ id c := c ]} ->
  range_ok (rangeNext w) -> 0 < maxIdleCount (pool w) ->
  socks w !! conn c = Some (mkConn (createTcpBuffer resp) e o None false) ->
  len resp < 2 ^ 32 ->
  exists w',
    run (SendData data) w = Done (inl resp) w'
    /\ idleConns (pool w') = {[ id c := c ]}
    /\ numOpen (pool w') = numOpen (pool w)
    /\ socks w'
       = <[conn c := mkConn [] e (o ++ createTcpBuffer data) None false]> (socks w)
    /\ mu (pool w') = false.
Proof.
  intros Hmu Hidle Hrange Hmax Hs Hfit.
  assert (rangeNext w (idleConns (pool w)) = Some c) as Hr.
  { specialize (Hrange (idleConns (pool w))).
    destruct (rangeNext w (idleConns (pool w))) as [c'|].
    - destruct Hrange as [k Hk]. rewrite Hidle in Hk.
      by apply lookup_singleton_Some in Hk as [_ <-].
    - rewrite Hidle in Hrange. by apply map_non_empty_singleton in Hrange. }
  unfold run, SendData. rewrite exec_bind. fold (run get w).
  rewrite (run_get_reuse w c); [|done| |done].
  2:{ rewrite Hidle. apply map_non_empty_singleton. }
  unfold andThen. cbv beta iota.
  match goal with |- context [exec 0 (sendOn c data) ?w0] =>
    change (exec 0 (sendOn c data) w0) with (run (sendOn c data) w0);
    rewrite (run_sendOn c data w0 _ Hs) end.
  rewrite Write_ok.
  rewrite <- (app_nil_r (createTcpBuffer resp)), Read_createTcpBuffer.
  rewrite uint32_small by (pose proof (len_nonneg resp); lia).
  unfold len at 1 2. rewrite Nat2Z.id, take_ge, drop_ge by lia. simpl app.
  cbv zeta.
  match goal with |- context [run (release c) ?w0] => set (w3 := w0) end.
  destruct (run_release c w3) as (Hrun & Hmu3 & _ & Hcase); [done|].
  assert (idleConns (pool w3) = ∅) as Hi3.
  { change (idleConns (pool w3)) with (delete (id c) (idleConns (pool w))).
    rewrite Hidle. apply delete_singleton_eq. }
  unfold numIdleConns in Hcase. rewrite Hi3, map_size_empty in Hcase.
  change (Z.of_nat 0) with 0 in Hcase.
  change (maxIdleCount (pool w3)) with (maxIdleCount (pool w)) in Hcase.
  replace (0 <? maxIdleCount (pool w)) with true in Hcase
    by (symmetry; by apply Z.ltb_lt).
  destruct Hcase as (Hi & Hso & Hn).
  rewrite Hrun. unfold andThen. eexists. split; [reflexivity|].
  rewrite Hi, Hso, Hn, insert_empty. split; [done|]. split; [done|].
  split; [|done].
  unfold w3. cbn [socks with_socks with_pool]. apply list_insert_insert_eq.
Qed.

Lemma SendData_reuses_idle_witness :
  let w := mkWorld (mkPool "127.0.0.1" 11011 false {[ "7" := c7 ]} 1 1 1 [])
                   [stream_of (createTcpBuffer [x6f; x6b]) StaysOpen] [] 1000
                   (inl (NetError "refused")) rangeFirst in
  mu (pool w) = false /\ idleConns (pool w) = {[ id c7 := c7 ]}
  /\ range_ok (rangeNext w) /\ 0 < maxIdleCount (pool w)
  /\ len [x6f; x6b] < 2 ^ 32
  /\ exists w', run (SendData [x68; x69]) w = Done (inl [x6f; x6b]) w'
                /\ idleConns (pool w') = {[ id c7 := c7 ]}.
Proof.
  intros w.
  assert (mu (pool w) = false) as H1 by reflexivity.
  assert (idleConns (pool w) = {[ id c7 := c7 ]}) as H2 by reflexivity.
  assert (range_ok (rangeNext w)) as H3 by exact range_ok_rangeFirst.
  assert (0 < maxIdleCount (pool w)) as H4 by (vm_compute; reflexivity).
  assert (len [x6f; x6b] < 2 ^ 32) as H5 by (vm_compute; reflexivity).
  split; [exact H1|]. split; [exact H2|]. split; [exact H3|]. split; [exact H4|].
  split; [exact H5|].
  destruct (SendData_reuses_idle w c7 [x68; x69] [x6f; x6b] [] StaysOpen
              H1 H2 H3 H4 eq_refl H5) as (w' & Hrun & Hidle & _).
  exists w'. by split.
Defined.

End PoolMore.


Module WorkerMore.
Import Framing Pool FramingFacts PoolFacts PoolMore.

(** The worker is the loop that takes a request from the queue and
    serves it. *)
Lemma handleConnectionRequest_serveRequest :
  handleConnectionRequest
  = Loop (fun _ : unit => req ← recvRequest; serveRequest req ;; Ret (inl tt))
         tt (fun r : Empty_set => match r with end).
Proof. reflexivity. Qed.

Lemma exec_Loop {A I R} n (body : I -> prog (I + R)) (k : R -> prog A) i w :
  exec n (Loop body i k) w = iterate n n body k i w.
Proof.
  simpl.
  match goal with
  | |- ?F n i w = _ =>
      assert (forall m i w, F m i w = iterate n m body k i w) as H; [|apply H]
  end.
  intros m. induction m as [|m IH]; intros i' w'; [done|]. simpl.
  destruct (exec n (body i') w') as [[i''|r] w''|o w''|w'']; auto.
Qed.


Lemma iterate_S {A I R} n m (body : I -> prog (I + R)) (k : R -> prog A) i w :
  iterate n (S m) body k i w
  = match exec n (body i) w with
    | Done (inl i') w' => iterate n m body k i' w'
    | Done (inr r) w' => exec n (k r) w'
    | Stuck o w' => Stuck o w'
    | Spins w' => Spins w'
    end.
Proof. reflexivity. Qed.

Lemma not_fired t : (t + 3 * Second <=? t) = false.
Proof. apply Z.leb_gt. unfold Second. lia. Qed.

(** *** One poll *)

Lemma poll_over req t n w rd ht :
  ht || rd = true -> exec n (pollOnce req t (rd, ht)) w = Done (inr tt) w.
Proof. intros H. unfold pollOnce. by rewrite H. Qed.

Lemma poll_grant req t n w c e :
  (t <=? now w) = false -> mu (pool w) = false -> idleConns (pool w) <> ∅ ->
  rangeNext w (idleConns (pool w)) = Some c ->
  requests w !! req = Some (mkRequest None e) ->
  exec n (pollOnce req t (false, false)) w
  = Done (inl (true, false))
      (with_requests (<[req := mkRequest (Some c) e]>)
         (with_pool (set_mu false)
            (with_pool (fun p => set_idleConns (delete (id c) (idleConns p)) p)
               (with_pool (set_mu true) w)))).
Proof.
  intros Ht Hmu Hne Hr Hreq. unfold pollOnce. cbn. rewrite Ht. cbn.
  rewrite Hmu. cbn.
  assert ((0 <? numIdleConns (with_pool (set_mu true) w)) = true) as ->.
  { apply Z.ltb_lt. unfold numIdleConns. cbn.
    assert (size (idleConns (pool w)) <> 0%nat); [|lia].
    intros Hs. by apply map_size_empty_iff in Hs. }
  cbn. rewrite Hr. cbn. rewrite Hreq. done.
Qed.

Lemma poll_dial req t n w s e :
  (t <=? now w) = false -> mu (pool w) = false -> idleConns (pool w) = ∅ ->
  0 < maxOpenCount (pool w) -> numOpen (pool w) < maxOpenCount (pool w) ->
  dialNext w = inr s ->
  requests w !! req = Some (mkRequest None e) ->
  exec n (pollOnce req t (false, false)) w
  = Done (inl (true, false))
      (with_requests
         (<[req := mkRequest (Some (mkTcpConn (pretty (now w)) (length (socks w)))) e]>)
         (with_socks (fun l => l ++ [s])
            (with_pool (set_mu false)
               (with_pool (fun p => set_numOpen (int (numOpen p + 1)) p)
                  (with_pool (set_mu true) w))))).
Proof.
  intros Ht Hmu Hidle Hpos Hlt Hdial Hreq. unfold pollOnce. cbn. rewrite Ht. cbn.
  rewrite Hmu. cbn. unfold numIdleConns. cbn. rewrite Hidle, map_size_empty.
  change (0 <? Z.of_nat 0) with false. cbn.
  replace (0 <? maxOpenCount (pool w)) with true by (symmetry; by apply Z.ltb_lt).
  replace (numOpen (pool w) <? maxOpenCount (pool w)) with true
    by (symmetry; by apply Z.ltb_lt).
  cbn. rewrite Hdial. cbn. rewrite Hreq. done.
Qed.

Lemma poll_nothing req t n w :
  (t <=? now w) = false -> mu (pool w) = false -> idleConns (pool w) = ∅ ->
  (0 <? maxOpenCount (pool w)) && (numOpen (pool w) <? maxOpenCount (pool w)) = false ->
  exec n (pollOnce req t (false, false)) w = Done (inl (false, false)) w.
Proof.
  intros Ht Hmu Hidle Hfull. unfold pollOnce. cbn. rewrite Ht. cbn.
  rewrite Hmu. cbn. unfold numIdleConns. cbn. rewrite Hidle, map_size_empty.
  change (0 <? Z.of_nat 0) with false. cbn. rewrite Hfull. cbn.
  destruct w as [[h p m i k mo mi q] ss rq t0 d r]. simpl in Hmu. by subst m.
Qed.


(** *** One request *)

Lemma serveRequest_done req n w w' :
  exec (S (S n)) (pollOnce req (now w + 3 * Second) (false, false)) w
  = Done (inl (true, false)) w' ->
  exec (S (S n)) (serveRequest req) w = Done tt w'.
Proof.
  intros Hpoll. unfold serveRequest. rewrite exec_bind.
  change (exec (S (S n)) (gets _) w) with (Done (A := Z) (now w + 3 * Second) w).
  unfold andThen. rewrite exec_Loop.
  rewrite iterate_S. cbv beta.
  rewrite Hpoll. cbv beta iota.
  rewrite iterate_S. cbv beta.
  by rewrite poll_over.
Qed.

Lemma worker_serves_one req n w w' :
  requestChan (pool w) = [req] ->
  exec (S (S n)) (serveRequest req) (with_pool (set_requestChan []) w)
  = Done tt w' ->
  requestChan (pool w') = [] ->
  exec (S (S n)) handleConnectionRequest w = Stuck ChanRecv w'.
Proof.
  intros Hq Hserve Hq'. rewrite handleConnectionRequest_serveRequest.
  rewrite exec_Loop.
  rewrite iterate_S. cbv beta.
  rewrite exec_bind.
  assert (exec (S (S n)) recvRequest w
          = Done req (with_pool (set_requestChan []) w)) as ->.
  { simpl. by rewrite Hq. }
  unfold andThen at 1. rewrite exec_bind, Hserve. unfold andThen at 1.
  change (exec _ (Ret (inl tt)) w') with (Done (A := unit + Empty_set) (inl tt) w').
  cbv beta iota. rewrite iterate_S. cbv beta.
  rewrite exec_bind.
  assert (exec (S (S n)) recvRequest w' = Stuck ChanRecv w') as ->.
  { simpl. by rewrite Hq'. }
  done.
Qed.

(** X18: the worker serves a queued request from the idle map: with the
    mutex free and an idle connection, it takes the request from the queue,
    removes an idle connection from the map, sends it on the [connChan] of
    the request with the mutex unlocked, and then waits for the next
    request; it dials nothing and leaves [numOpen] alone. *)
Theorem worker_grants_idle (w : world) (req : nat) (e : option error) (n : nat) :
  mu (pool w) = false -> idleConns (pool w) <> ∅ -> range_ok (rangeNext w) ->
  requestChan (pool w) = [req] ->
  requests w !! req = Some (mkRequest None e) ->
  exists c k w',
    idleConns (pool w) !! k = Some c
    /\ exec (S (S n)) handleConnectionRequest w = Stuck ChanRecv w'
    /\ requests w' = <[req := mkRequest (Some c) e]> (requests w)
    /\ idleConns (pool w') = delete (id c) (idleConns (pool w))
    /\ numOpen (pool w') = numOpen (pool w)
    /\ socks w' = socks w
    /\ mu (pool w') = false.
Proof.
  intros Hmu Hne Hrange Hq Hreq. specialize (Hrange (idleConns (pool w))).
  destruct (rangeNext w (idleConns (pool w))) as [c|] eqn:Hr; [|done].
  destruct Hrange as [k Hk]. exists c, k. eexists. split; [done|].
  split.
  - apply (worker_serves_one req n w _ Hq).
    + apply serveRequest_done. apply poll_grant; try done. apply not_fired.
    + done.
  - done.
Qed.

Lemma worker_grants_idle_witness :
  let w := mkWorld (mkPool "127.0.0.1" 11011 false {[ "7" := c7 ]} 1 1 1 [0%nat])
                   [stream_of [] StaysOpen] [mkRequest None None] 1000
                   (inl (NetError "refused")) rangeFirst in
  mu (pool w) = false /\ idleConns (pool w) <> ∅ /\ range_ok (rangeNext w)
  /\ requestChan (pool w) = [0%nat]
  /\ requests w !! 0%nat = Some (mkRequest None None)
  /\ exists c k w',
       idleConns (pool w) !! k = Some c
       /\ exec 2 handleConnectionRequest w = Stuck ChanRecv w'
       /\ requests w' = <[0%nat := mkRequest (Some c) None]> (requests w).
Proof.
  intros w.
  assert (mu (pool w) = false) as H1 by reflexivity.
  assert (idleConns (pool w) <> ∅) as H2 by apply map_non_empty_singleton.
  assert (range_ok (rangeNext w)) as H3 by exact range_ok_rangeFirst.
  assert (requestChan (pool w) = [0%nat]) as H4 by reflexivity.
  assert (requests w !! 0%nat = Some (mkRequest None None)) as H5 by reflexivity.
  split; [exact H1|]. split; [exact H2|]. split; [exact H3|]. split; [exact H4|].
  split; [exact H5|].
  destruct (worker_grants_idle w 0 None 0 H1 H2 H3 H4 H5)
    as (c & k & w' & Hk & Hrun & Hrq & _).
  exists c, k, w'. by repeat split.
Defined.

(** X19: the worker serves a queued request with a new connection: with
    the mutex free, nothing idle and [numOpen] below a positive
    [maxOpenCount], it counts the connection in [numOpen], dials with the
    mutex unlocked, sends the new connection on the [connChan] of the
    request, and then waits for the next request. *)
Theorem worker_opens_connection (w : world) (req : nat) (e : option error)
    (s : netConn) (n : nat) :
  mu (pool w) = false -> idleConns (pool w) = ∅ ->
  0 < maxOpenCount (pool w) -> numOpen (pool w) < maxOpenCount (pool w) ->
  dialNext w = inr s ->
  requestChan (pool w) = [req] ->
  requests w !! req = Some (mkRequest None e) ->
  exists w',
    exec (S (S n)) handleConnectionRequest w = Stuck ChanRecv w'
    /\ requests w'
       = <[req := mkRequest (Some (mkTcpConn (pretty (now w)) (length (socks w)))) e]>
           (requests w)
    /\ socks w' = socks w ++ [s]
    /\ numOpen (pool w') = int (numOpen (pool w) + 1)
    /\ idleConns (pool w') = ∅
    /\ mu (pool w') = false.
Proof.
  intros Hmu Hidle Hpos Hlt Hdial Hq Hreq. eexists. split.
  - apply (worker_serves_one req n w _ Hq).
    + apply serveRequest_done. apply poll_dial; try done. apply not_fired.
    + done.
  - simpl. by rewrite Hidle.
Qed.

Lemma worker_opens_connection_witness :
  let w := mkWorld (mkPool "127.0.0.1" 11011 false ∅ 0 1 1 [0%nat])
                   [] [mkRequest None None] 1000
                   (inr (stream_of [] StaysOpen)) rangeFirst in
  mu (pool w) = false /\ idleConns (pool w) = ∅
  /\ 0 < maxOpenCount (pool w) /\ numOpen (pool w) < maxOpenCount (pool w)
  /\ requestChan (pool w) = [0%nat]
  /\ requests w !! 0%nat = Some (mkRequest None None)
  /\ exists w',
       exec 2 handleConnectionRequest w = Stuck ChanRecv w'
       /\ socks w' = socks w ++ [stream_of [] StaysOpen].
Proof.
  intros w.
  assert (mu (pool w) = false) as H1 by reflexivity.
  assert (idleConns (pool w) = ∅) as H2 by reflexivity.
  assert (0 < maxOpenCount (pool w)) as H3 by (vm_compute; reflexivity).
  assert (numOpen (pool w) < maxOpenCount (pool w)) as H4
    by (vm_compute; reflexivity).
  assert (requestChan (pool w) = [0%nat]) as H5 by reflexivity.
  assert (requests w !! 0%nat = Some (mkRequest None None)) as H6 by reflexivity.
  split; [exact H1|]. split; [exact H2|]. split; [exact H3|]. split; [exact H4|].
  split; [exact H5|]. split; [exact H6|].
  destruct (worker_opens_connection w 0 None (stream_of [] StaysOpen) 0
              H1 H2 H3 H4 eq_refl H5 H6) as (w' & Hrun & _ & Hs & _).
  exists w'. by split.
Defined.


Lemma run_get_locked w : mu (pool w) = true -> run get w = Stuck MuLock w.
Proof. intros H. unfold run, get. simpl. by rewrite H. Qed.

Lemma poll_timeout req t n w c :
  (t <=? now w) = true -> requests w !! req = Some (mkRequest c None) ->
  exec n (pollOnce req t (false, false)) w
  = Done (inl (false, true))
         (with_requests (<[req := mkRequest c (Some ErrConnectionTimeout)]>) w).
Proof.
  intros Ht Hreq. unfold pollOnce. cbn. rewrite Ht. cbn. by rewrite Hreq.
Qed.

Lemma polls_nothing req t n m w :
  (t <=? now w) = false -> mu (pool w) = false -> idleConns (pool w) = ∅ ->
  (0 <? maxOpenCount (pool w)) && (numOpen (pool w) <? maxOpenCount (pool w)) = false ->
  iterate n m (pollOnce req t) (fun _ : unit => Ret tt) (false, false) w
  = Spins w.
Proof.
  intros Ht Hmu Hidle Hfull. induction m as [|m IH]; [done|].
  rewrite iterate_S, poll_nothing by done. exact IH.
Qed.

(** X20: the worker polls without a pause: with the mutex free, nothing
    idle and its condition for dialling false ([maxOpenCount <= 0] or
    [numOpen >= maxOpenCount]), the worker that has taken a request from
    the queue goes round its inner loop, locking and unlocking the mutex
    and changing nothing, for as many rounds as it is given while the clock
    stands still; it neither answers the request nor waits. *)
Theorem worker_polls_without_pause (w : world) (req : nat) (q : list nat)
    (n : nat) :
  mu (pool w) = false -> idleConns (pool w) = ∅ ->
  (0 < maxOpenCount (pool w) -> maxOpenCount (pool w) <= numOpen (pool w)) ->
  requestChan (pool w) = req :: q ->
  exec (S n) handleConnectionRequest w
  = Spins (with_pool (set_requestChan q) w).
Proof.
  intros Hmu Hidle Hfull Hq. rewrite handleConnectionRequest_serveRequest.
  rewrite exec_Loop, iterate_S. cbv beta. rewrite exec_bind.
  assert (exec (S n) recvRequest w
          = Done req (with_pool (set_requestChan q) w)) as ->.
  { simpl. by rewrite Hq. }
  unfold andThen at 1. rewrite exec_bind. unfold serveRequest.
  rewrite exec_bind.
  match goal with |- context [exec (S n) (gets ?f) ?w1] =>
    change (exec (S n) (gets f) w1) with (Done (f w1) w1) end.
  unfold andThen at 2. rewrite exec_Loop, polls_nothing; try done.
  - apply not_fired.
  - simpl. destruct (Z.ltb_spec 0 (maxOpenCount (pool w))); [|done].
    simpl. apply Z.ltb_ge. auto.
Qed.

Lemma worker_polls_without_pause_witness :
  let w := mkWorld (mkPool "127.0.0.1" 11011 false ∅ 1 1 1 [0%nat])
                   [stream_of [] StaysOpen] [mkRequest None None] 1000
                   (inl (NetError "refused")) rangeFirst in
  mu (pool w) = false /\ idleConns (pool w) = ∅
  /\ (0 < maxOpenCount (pool w) -> maxOpenCount (pool w) <= numOpen (pool w))
  /\ requestChan (pool w) = [0%nat]
  /\ exec 5 handleConnectionRequest w = Spins (with_pool (set_requestChan []) w).
Proof.
  intros w.
  assert (mu (pool w) = false) as H1 by reflexivity.
  assert (idleConns (pool w) = ∅) as H2 by reflexivity.
  assert (0 < maxOpenCount (pool w) -> maxOpenCount (pool w) <= numOpen (pool w))
    as H3 by (intros _; vm_compute; discriminate).
  assert (requestChan (pool w) = [0%nat]) as H4 by reflexivity.
  split; [exact H1|]. split; [exact H2|]. split; [exact H3|]. split; [exact H4|].
  exact (worker_polls_without_pause w 0 [] 4 H1 H2 H3 H4).
Defined.

(** X21: a timeout reaches the caller and leaves the pool locked.  A
    caller that found the pool at its limit waits in the [select] of [get]
    with the mutex locked.  When the inner loop of the worker runs for that
    request with the timer expired, it sends [ErrConnectionTimeout] on the
    [errChan] of the request and ends, without locking the mutex; the
    [select] of the caller then returns that error, [get] returns it without
    unlocking, and every later [get] and [release] waits for the mutex. *)
Theorem timeout_leaves_mutex_locked (w : world) (t t' : Z) (n : nat) :
  mu (pool w) = false -> idleConns (pool w) = ∅ ->
  0 < maxOpenCount (pool w) <= numOpen (pool w) ->
  len (requestChan (pool w)) < maxQueueLength ->
  t <= t' ->
  let req := length (requests w) in
  let w1 := after (run get w) in
  let late := mkWorld (pool w1) (socks w1) (requests w1) t' (dialNext w1)
                      (rangeNext w1) in
  exists w2 w3,
    run get w = Stuck (Select req) w1
    /\ exec (S (S n)) (Loop (pollOnce req t) (false, false) (fun _ : unit => Ret tt))
            late = Done tt w2
    /\ pool w2 = pool w1
    /\ run (selectRequest req) w2 = Done (inr ErrConnectionTimeout) w3
    /\ mu (pool w3) = true
    /\ run get w3 = Stuck MuLock w3
    /\ forall c, run (release c) w3 = Stuck MuLock w3.
Proof.
  intros Hmu Hidle [Hpos Hcap] Hqlen Ht req w1 late.
  assert (run get w
          = Stuck (Select req)
              (with_pool (fun p => set_requestChan (requestChan p ++ [req]) p)
                 (with_requests (fun l => l ++ [mkRequest None None])
                    (with_pool (set_mu true) w)))) as Hget.
  { unfold run, get. cbn. rewrite Hmu. cbn.
    unfold numIdleConns. cbn. rewrite Hidle, map_size_empty.
    change (0 <? Z.of_nat 0) with false. cbn.
    replace (0 <? maxOpenCount (pool w)) with true by (symmetry; by apply Z.ltb_lt).
    replace (maxOpenCount (pool w) <=? numOpen (pool w)) with true
      by (symmetry; by apply Z.leb_le).
    cbn. replace (len (requestChan (pool w)) <? maxQueueLength) with true
      by (symmetry; by apply Z.ltb_lt).
    cbn. by rewrite list_lookup_middle. }
  assert (requests late !! req = Some (mkRequest None None)) as Hreq.
  { subst late w1. rewrite Hget. simpl. by apply list_lookup_middle. }
  assert (mu (pool late) = true) as Hlocked.
  { subst late w1. by rewrite Hget. }
  eexists _, _. split; [unfold w1; rewrite Hget; reflexivity|]. split.
  { rewrite exec_Loop, iterate_S.
    rewrite (poll_timeout req t _ late None) by (by apply Z.leb_le || done).
    rewrite iterate_S, poll_over by done. reflexivity. }
  split; [done|]. split.
  { unfold run. simpl.
    replace (<[req := _]> (requests late) !! req)
      with (Some (mkRequest None (Some ErrConnectionTimeout))); [reflexivity|].
    symmetry. apply list_lookup_insert_eq. by eapply lookup_lt_Some. }
  split; [exact Hlocked|]. split.
  - apply run_get_locked. exact Hlocked.
  - intros c. apply run_release_locked. exact Hlocked.
Qed.

Lemma timeout_leaves_mutex_locked_witness :
  mu (pool w_held) = false /\ idleConns (pool w_held) = ∅
  /\ 0 < maxOpenCount (pool w_held) <= numOpen (pool w_held)
  /\ len (requestChan (pool w_held)) < maxQueueLength
  /\ now w_held + 3 * Second <= now w_held + 4 * Second
  /\ exists w2 w3,
       run (selectRequest 0) w2 = Done (inr ErrConnectionTimeout) w3
       /\ mu (pool w3) = true.
Proof.
  assert (mu (pool w_held) = false) as H1 by reflexivity.
  assert (idleConns (pool w_held) = ∅) as H2 by reflexivity.
  assert (0 < maxOpenCount (pool w_held) <= numOpen (pool w_held)) as H3
    by (vm_compute; split; [reflexivity|discriminate]).
  assert (len (requestChan (pool w_held)) < maxQueueLength) as H4
    by (vm_compute; reflexivity).
  assert (now w_held + 3 * Second <= now w_held + 4 * Second) as H5
    by (vm_compute; discriminate).
  split; [exact H1|]. split; [exact H2|]. split; [exact H3|]. split; [exact H4|].
  split; [exact H5|].
  destruct (timeout_leaves_mutex_locked w_held _ _ 0 H1 H2 H3 H4 H5)
    as (w2 & w3 & _ & _ & _ & Hsel & Hmu & _).
  exists w2, w3. by split.
Defined.

End WorkerMore.


Module DispatchMore.
Import Framing Dispatch FramingFacts.

(** One encoded message at the head of the stream of a socket. *)
Lemma Read_frame data rest e o wf cl :
  len data < 2 ^ 32 ->
  Read (mkConn (createTcpBuffer data ++ rest) e o wf cl)
  = (Ok data, mkConn rest e o wf cl).
Proof.
  intros Hfit. rewrite Read_createTcpBuffer.
  rewrite uint32_small by (pose proof (len_nonneg data); lia).
  unfold len. rewrite Nat2Z.id. by rewrite take_ge, drop_ge by lia.
Qed.

(** [Read] on a socket with nothing left to deliver. *)
Lemma Read_drained e o wf cl :
  Read (mkConn [] e o wf cl)
  = (match e with
     | StaysOpen => Blocks
     | Ends err => Err (if errors_Is err EOF then ErrConnectionClosed else err)
     end, mkConn [] e o wf cl).
Proof.
  unfold Read, ReadFull, consume. simpl. destruct e as [err|]; [|done].
  simpl. by destruct (errors_Is err EOF).
Qed.




Section Handlers.
Context {obj : Type} {json : Codec obj}.



Lemma HandleClientConnection_first (st : server obj) (c : netConn) :
  HandleClientConnection st c
  = match serve st c with
    | Next st' c' => serveLoop (length (incoming c)) st' c'
    | Return err st' c' => Return err st' (Close c')
    | Waits st' c' => Waits st' c'
    end.
Proof. reflexivity. Qed.


(** X23: a message that cannot be routed ends the connection and
    changes nothing: when the envelope does not decode, or names a command
    without a registered handler, [HandleClientConnection] returns with the
    decoder's error or with [ErrMissingHandler]; it has written nothing,
    has left the registry and the shapes as they were, has not looked at the
    messages behind, and has closed the socket. *)
Theorem unroutable_message_closes (st : server obj) (data rest : list byte)
    (e : ending) (o : list byte) (wf : option error) (cl : bool) (err : error) :
  len data < 2 ^ 32 ->
  match unmarshalPacket data with
  | inr e1 => err = e1
  | inl packet =>
      handlers st !! Packet_Command packet = None /\ err = ErrMissingHandler
  end ->
  HandleClientConnection st (mkConn (createTcpBuffer data ++ rest) e o wf cl)
  = Return err st (mkConn rest e o wf true).
Proof.
  intros Hfit Hbad. rewrite HandleClientConnection_first.
  unfold serve. rewrite Read_frame by done.
  destruct (unmarshalPacket data) as [packet|e1]; [|by subst].
  destruct Hbad as [-> ->]. done.
Qed.

(** X24: a request that does not decode ends the connection before the
    handler runs: [HandleClientConnection] returns the decoder's error with
    the socket closed and nothing written; of the server's state only the
    [Request] object of the handler has changed, to what the decoder left
    in it. *)
Theorem undecodable_request_closes (st : server obj) (data rest : list byte)
    (e : ending) (o : list byte) (wf : option error) (cl : bool)
    (packet : Packet) (hc : HandlerConfig obj) (req req' : obj) (err : error) :
  len data < 2 ^ 32 ->
  unmarshalPacket data = inl packet ->
  handlers st !! Packet_Command packet = Some hc ->
  heap st !! Request hc = Some req ->
  unmarshal (Packet_Data packet) req = (req', Some err) ->
  HandleClientConnection st (mkConn (createTcpBuffer data ++ rest) e o wf cl)
  = Return err (mkServer (handlers st) (<[Request hc := req']> (heap st)))
           (mkConn rest e o wf true).
Proof.
  intros Hfit Hpkt Hh Hreq Hun. rewrite HandleClientConnection_first.
  unfold serve. rewrite Read_frame by done. by rewrite Hpkt, Hh, Hreq, Hun.
Qed.

(** X25: a registered handler answers.  After [RegisterHandler hc], one
    message for the command of [hc] is decoded into the [Request] object of
    [hc], the handler of [hc] is called on the two objects, and exactly the
    encoded [Response] object is written to the socket; then the server
    waits for the next message if the connection stays open, and closes
    the socket when the client has hung up. *)
Theorem registered_handler_answers (st0 : server obj) (hc : HandlerConfig obj)
    (data : list byte) (packet : Packet) (req req' res : obj)
    (response : list byte) (e : ending) (o : list byte) (cl : bool) :
  len data < 2 ^ 32 ->
  unmarshalPacket data = inl packet ->
  Packet_Command packet = Command hc ->
  heap st0 !! Request hc = Some req ->
  unmarshal (Packet_Data packet) req = (req', None) ->
  let heap2 := Handler hc (Request hc) (Response hc)
                       (<[Request hc := req']> (heap st0)) in
  heap2 !! Response hc = Some res ->
  marshal res = inl response ->
  let st2 := mkServer (<[Command hc := hc]> (handlers st0)) heap2 in
  let c2 := mkConn [] e (o ++ createTcpBuffer response) None cl in
  HandleClientConnection (RegisterHandler hc st0)
                         (mkConn (createTcpBuffer data) e o None cl)
  = match e with
    | StaysOpen => Waits st2 c2
    | Ends err =>
        Return (if errors_Is err EOF then ErrConnectionClosed else err) st2
               (Close c2)
    end.
Proof.
  intros Hfit Hpkt Hcmd Hreq Hun heap2 Hres Hm st2 c2.
  rewrite HandleClientConnection_first.
  change (incoming (mkConn (createTcpBuffer data) e o None cl))
    with (createTcpBuffer data).
  assert (length (createTcpBuffer data) = S (S (S (S (length data))))) as ->.
  { unfold createTcpBuffer. by rewrite length_app, length_PutUint32. }
  assert (serve (RegisterHandler hc st0) (mkConn (createTcpBuffer data) e o None cl)
          = Next st2 c2) as ->.
  { unfold serve. rewrite <- (app_nil_r (createTcpBuffer data)).
    rewrite Read_frame by done. rewrite Hpkt, Hcmd.
    unfold RegisterHandler at 1. cbn [handlers heap].
    rewrite lookup_insert_eq. cbn [heap RegisterHandler]. rewrite Hreq, Hun.
    fold heap2. by rewrite Hres, Hm. }
  cbn [serveLoop]. unfold serve, c2. rewrite Read_drained. by destruct e.
Qed.

End Handlers.

Lemma unroutable_message_closes_witness :
  len [x68; x69] < 2 ^ 32
  /\ HandleClientConnection login_server
       (stream_of (createTcpBuffer [x68; x69] ++ createTcpBuffer envelope_bytes)
                  StaysOpen)
     = Return (JsonError "invalid character") login_server
              (mkConn (createTcpBuffer envelope_bytes) StaysOpen [] None true).
Proof.
  assert (len [x68; x69] < 2 ^ 32) as H by (vm_compute; reflexivity).
  split; [exact H|].
  exact (unroutable_message_closes login_server [x68; x69]
           (createTcpBuffer envelope_bytes) StaysOpen [] None false
           (JsonError "invalid character") H eq_refl).
Defined.

(** An envelope for login_user whose [Data] is not a login request. *)
Lemma undecodable_request_closes_witness :
  let json : Codec shape :=
    @mkCodec shape (fun _ => inl (mkPacket CmdLoginUser [x68; x69]))
            (@unmarshal shape sample_json) (@marshal shape sample_json) in
  let st := @login_server json in
  len [x7b; x7d] < 2 ^ 32
  /\ @unmarshalPacket shape json [x7b; x7d] = inl (mkPacket CmdLoginUser [x68; x69])
  /\ handlers st !! CmdLoginUser = Some login_config
  /\ heap st !! Request login_config = Some (LoginUserRequest "" "")
  /\ @HandleClientConnection shape json st
       (stream_of (createTcpBuffer [x7b; x7d] ++ []) StaysOpen)
     = Return (JsonError "invalid character")
         (mkServer (handlers st)
                   (<[Request login_config := LoginUserRequest "" ""]> (heap st)))
         (mkConn [] StaysOpen [] None true).
Proof.
  intros json st.
  assert (len [x7b; x7d] < 2 ^ 32) as H1 by (vm_compute; reflexivity).
  assert (@unmarshalPacket shape json [x7b; x7d]
          = inl (mkPacket CmdLoginUser [x68; x69])) as H2 by reflexivity.
  assert (handlers st !! CmdLoginUser = Some login_config) as H3
    by (vm_compute; reflexivity).
  assert (heap st !! Request login_config = Some (LoginUserRequest "" "")) as H4
    by reflexivity.
  split; [exact H1|]. split; [exact H2|]. split; [exact H3|]. split; [exact H4|].
  exact (@undecodable_request_closes shape json st [x7b; x7d] [] StaysOpen [] None
           false (mkPacket CmdLoginUser [x68; x69]) login_config
           (LoginUserRequest "" "") (LoginUserRequest "" "")
           (JsonError "invalid character") H1 H2 H3 H4 eq_refl).
Defined.

Lemma registered_handler_answers_witness :
  let st0 : server shape :=
    mkServer ∅ [LoginUserRequest "" ""; LoginUserResponse 0 ""] in
  len envelope_bytes < 2 ^ 32
  /\ HandleClientConnection (RegisterHandler login_config st0)
       (mkConn (createTcpBuffer envelope_bytes) StaysOpen [] None false)
     = Waits (mkServer (<[CmdLoginUser := login_config]> ∅)
                       [LoginUserRequest "a" "b"; LoginUserResponse 0 "Got it!"])
             (mkConn [] StaysOpen (createTcpBuffer response_bytes) None false).
Proof.
  intros st0.
  assert (len envelope_bytes < 2 ^ 32) as H by (vm_compute; reflexivity).
  split; [exact H|].
  exact (registered_handler_answers st0 login_config envelope_bytes
           (mkPacket CmdLoginUser request_bytes)
           (LoginUserRequest "" "") (LoginUserRequest "a" "b")
           (LoginUserResponse 0 "Got it!") response_bytes StaysOpen [] false
           H eq_refl eq_refl eq_refl eq_refl eq_refl eq_refl).
Defined.

End DispatchMore.
